(** * AniList insights bot: the cache, the statistics aggregation, the cover
    lookup and the two command handlers of [src/modules/AnimeStatsService.js]
    (classes [CacheService], [AnimeStatsService], [AnimeCoverService]).

    Conventions of the embedding.
    - A JavaScript string is a [string]; each character stands for one code
      unit below 256.
    - A JavaScript number that the code only ever uses as an integer (a time
      stamp, a list length, a score, a parsed identifier) is a [Z]. The
      binary64 representation is exact up to 2^53; the one place where the
      code leaves the integers, the division of the score sum by the number
      of scores, is modelled by its correctly rounded binary64 result
      ([js_div]).
    - [async] functions run their awaits in program order; every function
      that touches the cache, the clock, the interaction or the network is a
      computation in the state-and-exception monad [M]. *)

From Stdlib Require Import ZArith Lia Bool Ascii String.
From stdpp Require Import base option list strings gmap pretty.

Local Open Scope Z_scope.

(** ** JavaScript values that reach the cache and the statistics record *)

(** [stats.averageScore] starts as the number [0] and is overwritten by the
    string that [toFixed] returns. *)
Inductive JsVal :=
| JNum (z : Z)
| JStr (s : string).

Record AnimeStats := {
  totalAnime : nat;
  completedAnime : nat;
  watchingAnime : nat;
  pausedAnime : nat;
  droppedAnime : nat;
  planningAnime : nat;
  averageScore : JsVal
}.

(** What a caller may hand to [CacheService.set]. [VNull] is JavaScript's
    [null], which [CacheService.get] also returns for "no entry". *)
Inductive Value :=
| VNull
| VNum (z : Z)
| VStr (s : string)
| VStats (st : AnimeStats).

(** [if (v)] *)
Definition truthy (v : Value) : bool :=
  match v with
  | VNull => false
  | VNum z => negb (z =? 0)
  | VStr s => negb (String.eqb s "")
  | VStats _ => true
  end.

(** ** CacheService *)

Record CacheEntry := { value : Value; timestamp : Z }.

Record CacheService := { cache : gmap string CacheEntry; ttl : Z }.

Module Cache.

(** [constructor(ttl = 300000)] *)
Definition default_ttl : Z := 300000.

Definition new (ttl : Z) : CacheService := {| cache := ∅; ttl := ttl |}.

(** [set(key, value)], with [now] the reading of [Date.now()]. *)
Definition set (now : Z) (key : string) (v : Value) (this : CacheService)
  : Value * CacheService :=
  let entry := {| value := v; timestamp := now |} in
  (v, {| cache := <[key := entry]> (cache this); ttl := ttl this |}).

(** [get(key)], with [now] the reading of [Date.now()]. An entry object is
    always truthy, so [!entry] holds exactly when the map has no entry. *)
Definition get (now : Z) (key : string) (this : CacheService)
  : Value * CacheService :=
  match cache this !! key with
  | None => (VNull, this)
  | Some entry =>
      if ttl this <? now - timestamp entry
      then (VNull, {| cache := delete key (cache this); ttl := ttl this |})
      else (value entry, this)
  end.

(** [clear(key)] *)
Definition clear (key : string) (this : CacheService) : CacheService :=
  {| cache := delete key (cache this); ttl := ttl this |}.

End Cache.

(** ** Numbers: binary64 division, [toFixed(2)], [parseInt] *)

(** A finite binary64 value, [mant * 2 ^ expo]. *)
Record Double := { mant : Z; expo : Z }.

(** The integer nearest to [n / d], ties to the even one. *)
Definition round_half_even (n d : Z) : Z :=
  let q := n / d in
  let r := n mod d in
  if 2 * r <? d then q
  else if d <? 2 * r then q + 1
  else if Z.even q then q else q + 1.

(** Numerator and denominator of [a / (b * 2 ^ e)]. *)
Definition scaled (a b e : Z) : Z * Z :=
  if 0 <=? e then (a, b * 2 ^ e) else (a * 2 ^ (- e), b).

(** [a / b] for positive integers below 2^53: the exponent is chosen so
    that the quotient has 53 significant bits, and the significand is
    rounded to nearest, ties to even. *)
Definition js_div_pos (a b : Z) : Double :=
  let e0 := Z.log2 a - Z.log2 b - 52 in
  let e :=
    if 2 ^ 52 <=? fst (scaled a b e0) / snd (scaled a b e0)
    then e0 else e0 - 1 in
  {| mant := round_half_even (fst (scaled a b e)) (snd (scaled a b e));
     expo := e |}.

(** [a / b] for an integer [a] and a positive integer [b]. *)
Definition js_div (a b : Z) : Double :=
  if a =? 0 then {| mant := 0; expo := 0 |}
  else
    let x := js_div_pos (Z.abs a) b in
    {| mant := Z.sgn a * mant x; expo := expo x |}.

(** [Number.prototype.toFixed], step "let n be an integer for which
    n / 10^2 - x is as close to zero as possible; if there are two such n,
    pick the larger n", for the magnitude of [x]. *)
Definition hundredths (x : Double) : Z :=
  let m := Z.abs (mant x) in
  if 0 <=? expo x then 100 * m * 2 ^ expo x
  else (200 * m + 2 ^ (- expo x)) / 2 ^ (1 - expo x).

(** Left padding with zeros up to three digits. *)
Definition pad3 (s : string) : string :=
  match s with
  | String a EmptyString => String "0" (String "0" s)
  | String a (String b EmptyString) => String "0" s
  | _ => s
  end.

(** The digits of [n] with a point before the last two. *)
Definition fixed2 (n : Z) : string :=
  let m := pad3 (pretty n) in
  let k := String.length m in
  substring 0 (k - 2) m +:+ "." +:+ substring (k - 2) 2 m.

(** [x.toFixed(2)] for a finite [x] below 10^21 in magnitude. *)
Definition toFixed2 (x : Double) : string :=
  (if mant x <? 0 then "-" else "") +:+ fixed2 (hundredths x).

(** White space that [parseInt] skips, among the code units below 256. *)
Definition is_white_space (c : ascii) : bool :=
  let n := Z.of_nat (nat_of_ascii c) in
  (9 <=? n) && (n <=? 13) || (n =? 32) || (n =? 160).

Fixpoint trim_start (s : string) : string :=
  match s with
  | String c r => if is_white_space c then trim_start r else s
  | EmptyString => s
  end.

(** The value of [c] as a digit, when it is one in the given radix. *)
Definition digit_value (radix : Z) (c : ascii) : option Z :=
  let n := Z.of_nat (nat_of_ascii c) in
  let v :=
    if (48 <=? n) && (n <=? 57) then n - 48
    else if (97 <=? n) && (n <=? 122) then n - 87
    else if (65 <=? n) && (n <=? 90) then n - 55
    else radix in
  if v <? radix then Some v else None.

(** The integer written by the longest prefix of digits; [acc] is the value
    of the digits already read, [None] while there are none. *)
Fixpoint read_digits (radix : Z) (s : string) (acc : option Z) : option Z :=
  match s with
  | String c r =>
      match digit_value radix c with
      | Some v => read_digits radix r (Some (default 0 acc * radix + v))
      | None => acc
      end
  | EmptyString => acc
  end.

(** [parseInt(s)] with no radix argument; [None] is [NaN]. The result is
    the integer that the digits write. The number of the source is the
    binary64 nearest to it: the same integer when it is below 2^53 in
    magnitude, and whether the result is [NaN] and which sign it has do
    not depend on the rounding. *)
Definition parseInt (s : string) : option Z :=
  let s := trim_start s in
  let '(sign, s) :=
    match s with
    | String "-" r => (-1, r)
    | String "+" r => (1, r)
    | _ => (1, s)
    end in
  let '(radix, s) :=
    match s with
    | String "0" (String "x" r) => (16, r)
    | String "0" (String "X" r) => (16, r)
    | _ => (10, s)
    end in
  match read_digits radix s None with
  | Some n => Some (sign * n)
  | None => None
  end.

(** ** Upstream responses *)

Inductive Error :=
| UserNotFound (username : string)
| UpstreamError (message : string)
| TypeError
| InteractionAlreadyReplied
| InteractionNotReplied
| HostError
| RenderError.

Inductive Result (A : Type) :=
| Ok (a : A)
| Throw (e : Error).
Arguments Ok {A} a.
Arguments Throw {A} e.

Module Api.

(** [media.averageScore]: [null], absent ([undefined]) or a number. *)
Inductive Score :=
| SNull
| SUndefined
| SNum (z : Z).

Record EntryMedia := { averageScore : Score }.

(** An entry of a list; the code reads only [entry.media]. *)
Record Entry := { media : option EntryMedia }.

(** A list object of the [lists] array. The array is one of list objects:
    a [null] element, on which [list.name] of the callback of [find]
    throws, is not among the values of this type, and what is proved of
    the aggregation is proved of arrays of list objects. *)
Record MediaList := { name : string; entries : option (list Entry) }.

Record Collection := { lists : option (list MediaList) }.

(** [response.data.data] of the statistics query; the code tests [User]
    for truthiness only. *)
Record StatsData := {
  User : option unit;
  MediaListCollection : option Collection
}.

Record CoverImage := { extraLarge : option string }.
Record CoverMedia := { coverImage : option CoverImage }.
(** [response.data.data] of the cover query. *)
Record CoverData := { Media : option CoverMedia }.

(** What [axios.post] settles to: a rejection, or a response whose
    [data.data] may be absent. *)
Inductive Reply (A : Type) :=
| Rejected (message : string)
| Resolved (data : option A).
Arguments Rejected {A} message.
Arguments Resolved {A} data.

End Api.

(** ** The aggregation of [fetchUserAnimeStats] (source lines 93 to 126) *)

(** [lists.find(list => list.name === nm)?.entries || []], on an array of
    list objects. *)
Definition category (lists : list Api.MediaList) (nm : string) : list Api.Entry :=
  match List.find (fun l => String.eqb (Api.name l) nm) lists with
  | Some l => default [] (Api.entries l)
  | None => []
  end.

(** [entry => entry.media.averageScore] *)
Definition entry_score (e : Api.Entry) : Result Api.Score :=
  match Api.media e with
  | Some m => Ok (Api.averageScore m)
  | None => Throw TypeError
  end.

(** [allEntries.map(entry => entry.media.averageScore)] *)
Fixpoint entry_scores (es : list Api.Entry) : Result (list Api.Score) :=
  match es with
  | [] => Ok []
  | e :: r =>
      match entry_score e with
      | Ok s =>
          match entry_scores r with
          | Ok ss => Ok (s :: ss)
          | Throw err => Throw err
          end
      | Throw err => Throw err
      end
  end.

(** [score => score !== null] *)
Definition not_null (s : Api.Score) : bool :=
  match s with
  | Api.SNull => false
  | _ => true
  end.

(** [a + b] for the accumulator [a] of the reduction; [None] is [NaN]. *)
Definition add_score (a : option Z) (b : Api.Score) : option Z :=
  match a, b with
  | Some x, Api.SNum z => Some (x + z)
  | Some x, Api.SNull => Some x
  | _, _ => None
  end.

(** [validScores.reduce((a, b) => a + b, 0)] *)
Definition sum_scores (scores : list Api.Score) : option Z :=
  fold_left add_score scores (Some 0).

(** [(sum / validScores.length).toFixed(2)] *)
Definition average_text (scores : list Api.Score) : string :=
  match sum_scores scores with
  | Some s => toFixed2 (js_div s (Z.of_nat (length scores)))
  | None => "NaN"
  end.

(** [Object.values(statusCategories).flat()] *)
Definition all_entries (ls : list Api.MediaList) : list Api.Entry :=
  category ls "Completed" ++ category ls "Watching" ++ category ls "Paused"
    ++ category ls "Dropped" ++ category ls "Planning".

(** From [const statusCategories = ...] to the end of the computation of
    [stats]; [lists] is [MediaListCollection.lists], absent when the
    response has no such field. *)
Definition aggregate (lists : option (list Api.MediaList)) : Result AnimeStats :=
  match lists with
  | None => Throw TypeError
  | Some ls =>
      let completed := category ls "Completed" in
      let watching := category ls "Watching" in
      let paused := category ls "Paused" in
      let dropped := category ls "Dropped" in
      let planning := category ls "Planning" in
      let allEntries := all_entries ls in
      match entry_scores allEntries with
      | Throw err => Throw err
      | Ok scores =>
          let validScores := List.filter not_null scores in
          Ok {| totalAnime := length allEntries;
                completedAnime := length completed;
                watchingAnime := length watching;
                pausedAnime := length paused;
                droppedAnime := length dropped;
                planningAnime := length planning;
                averageScore :=
                  if (0 <? length validScores)%nat
                  then JStr (average_text validScores)
                  else JNum 0 |}
      end
  end.

(** ** The interaction, the replies and the observable events *)

(** The texts the handlers send; the leading glyph of the source strings is
    left out. *)
Inductive Message :=
| MsgProvideUsername                  (* Please provide a valid AniList username. *)
| MsgStatsFailed (username : string)  (* Error fetching anime stats for ... *)
| MsgUnexpected                       (* An unexpected error occurred. ... *)
| MsgProvideAnimeId                   (* Please provide a valid anime ID. *)
| MsgNoCover                          (* No cover image found for that anime ID. *)
| MsgCoverFailed.                     (* An error occurred while fetching the anime cover. *)

(** What [EmbedBuilder] is given: a title, the field values in order, an
    image. *)
Record Embed := {
  embed_title : string;
  embed_fields : list (string * string);
  embed_image : option string
}.

Inductive Payload :=
| Content (m : Message)
| Embeds (e : Embed).

Inductive HostOp :=
| DeferReply
| Reply (p : Payload)
| EditReply (p : Payload).

(** One call on the interaction: the operation, the two flags as they were
    when the call was made, and whether the platform accepted it. *)
Record HostCall := {
  op : HostOp;
  deferred_before : bool;
  replied_before : bool;
  accepted : bool
}.

Inductive MetricEvent :=
| CacheHit (metric : string)
| ErrorMetric (kind component : string)
| ApiRequestMetric (component outcome : string).

Inductive Event :=
| Host (c : HostCall)
| StatsQuery (username : string)
| CoverQuery (id : option Z)
| Metric (m : MetricEvent)
| Logged (message : string).

(** The interaction object of the host library, which is not part of the
    repository: the flags [deferred] and [replied], and for each coming
    round trip to the platform whether it will be accepted (an exhausted
    script accepts). [deferReply] and [reply] are refused by the library
    once a flag is set, [editReply] while none is; an accepted [deferReply]
    sets [deferred], an accepted [reply] or [editReply] sets [replied]. *)
Record Interaction := {
  deferred : bool;
  replied : bool;
  script : list bool
}.

Record World := {
  service_cache : CacheService;
  now : Z;
  interaction : Interaction;
  trace : list Event
}.

(** The collaborators a run depends on: the upstream API (its answer may
    depend on the time of the request), the time a request takes, and
    whether [EmbedBuilder] accepts an embed or throws. *)
Record Env := {
  stats_api : Z -> string -> Api.Reply Api.StatsData;
  cover_api : Z -> option Z -> Api.Reply Api.CoverData;
  latency : Z;
  builder_accepts : Embed -> bool
}.

(** ** The monad of the service: state and exceptions *)

Definition M (A : Type) : Type := World -> Result A * World.

Definition ret {A} (a : A) : M A := fun w => (Ok a, w).

Definition throw {A} (e : Error) : M A := fun w => (Throw e, w).

Definition bind {A B} (m : M A) (k : A -> M B) : M B :=
  fun w =>
    match m w with
    | (Ok a, w') => k a w'
    | (Throw e, w') => (Throw e, w')
    end.

(** [try { m } catch (e) { h e }] *)
Definition try_catch {A} (m : M A) (h : Error -> M A) : M A :=
  fun w =>
    match m w with
    | (Ok a, w') => (Ok a, w')
    | (Throw e, w') => h e w'
    end.

Definition lift {A} (r : Result A) : M A := fun w => (r, w).

Notation "'let!' x ':=' m 'in' k" := (bind m (fun x => k))
  (at level 10, x name, m at level 100, k at level 200).
Notation "'do!' m 'in' k" := (bind m (fun _ => k))
  (at level 10, m at level 100, k at level 200).

Definition emit (ev : Event) : M unit :=
  fun w =>
    (Ok tt,
     {| service_cache := service_cache w; now := now w;
        interaction := interaction w; trace := trace w ++ [ev] |}).

Definition set_interaction (i : Interaction) (w : World) : World :=
  {| service_cache := service_cache w; now := now w;
     interaction := i; trace := trace w |}.

Definition set_cache (c : CacheService) (w : World) : World :=
  {| service_cache := c; now := now w;
     interaction := interaction w; trace := trace w |}.

(** [this.cache.get(key)] and [this.cache.set(key, value)] at the current
    reading of the clock. *)
Definition cache_get (key : string) : M Value :=
  fun w =>
    let '(v, c) := Cache.get (now w) key (service_cache w) in
    (Ok v, set_cache c w).

Definition cache_set (key : string) (v : Value) : M Value :=
  fun w =>
    let '(v', c) := Cache.set (now w) key v (service_cache w) in
    (Ok v', set_cache c w).

(** A call on the interaction: refused by the library when [legal] is
    false, otherwise sent to the platform, which accepts or rejects it. *)
Definition host_call (o : HostOp) (legal : Interaction -> bool)
    (refusal : Error) (after : Interaction -> Interaction) : M unit :=
  fun w =>
    let i := interaction w in
    let call ok :=
      Host {| op := o; deferred_before := deferred i;
              replied_before := replied i; accepted := ok |} in
    let log ok w' :=
      {| service_cache := service_cache w'; now := now w';
         interaction := interaction w'; trace := trace w' ++ [call ok] |} in
    if legal i then
      match script i with
      | false :: rest =>
          (Throw HostError,
           log false (set_interaction
             {| deferred := deferred i; replied := replied i; script := rest |} w))
      | true :: rest =>
          (Ok tt,
           log true (set_interaction
             (after {| deferred := deferred i; replied := replied i; script := rest |}) w))
      | [] => (Ok tt, log true (set_interaction (after i) w))
      end
    else (Throw refusal, log false w).

Definition mark_deferred (i : Interaction) : Interaction :=
  {| deferred := true; replied := replied i; script := script i |}.

Definition mark_replied (i : Interaction) : Interaction :=
  {| deferred := deferred i; replied := true; script := script i |}.

Definition deferReply : M unit :=
  host_call DeferReply (fun i => negb (deferred i || replied i))
    InteractionAlreadyReplied mark_deferred.

Definition reply (p : Payload) : M unit :=
  host_call (Reply p) (fun i => negb (deferred i || replied i))
    InteractionAlreadyReplied mark_replied.

Definition editReply (p : Payload) : M unit :=
  host_call (EditReply p) (fun i => deferred i || replied i)
    InteractionNotReplied mark_replied.

(** [interaction.replied] and [interaction.deferred] *)
Definition read_flags : M (bool * bool) :=
  fun w => (Ok (replied (interaction w), deferred (interaction w)), w).

(** [new EmbedBuilder()...]: the builder validates what it is given. *)
Definition build (accepts : Embed -> bool) (e : Embed) : M Embed :=
  if accepts e then ret e else throw RenderError.

Section Service.

Variable env : Env.

(** [await axios.post(...)]: the request is sent, time passes, and the
    call settles. *)
Definition post {A} (ev : Event) (answer : Z -> Api.Reply A) : M (option A) :=
  fun w =>
    let w' :=
      {| service_cache := service_cache w; now := now w + latency env;
         interaction := interaction w; trace := trace w ++ [ev] |} in
    match answer (now w) with
    | Api.Rejected msg => (Throw (UpstreamError msg), w')
    | Api.Resolved d => (Ok d, w')
    end.

(** ** AnimeStatsService *)

(** The body of the [try] block of [fetchUserAnimeStats]. *)
Definition fetch_and_aggregate (username : string) : M Value :=
  let! data := post (StatsQuery username)
                 (fun t => stats_api env t username) in
  match data with
  | None => throw TypeError
  | Some d =>
      match Api.User d with
      | None => throw (UserNotFound username)
      | Some _ =>
          match Api.MediaListCollection d with
          | None => throw TypeError
          | Some c =>
              let! stats := lift (aggregate (Api.lists c)) in
              cache_set ("stats_" +:+ username) (VStats stats)
          end
      end
  end.

Definition fetchUserAnimeStats (username : string) : M Value :=
  let! cachedStats := cache_get ("stats_" +:+ username) in
  if truthy cachedStats then
    do! emit (Metric (CacheHit "anime_stats")) in
    ret cachedStats
  else
    try_catch (fetch_and_aggregate username)
      (fun error =>
         do! emit (Metric (ErrorMetric "fetch_failure" "anime_stats")) in
         do! emit (Logged "Anime stats fetch failed") in
         throw error).

(** [`${stats.averageScore || 'N/A'}`] *)
Definition average_field (a : JsVal) : string :=
  match a with
  | JNum z => if z =? 0 then "N/A" else pretty z
  | JStr s => if String.eqb s "" then "N/A" else s
  end.

(** [createAnimeStatsEmbed(username, stats)]; a value that is no
    statistics record has none of the properties read. *)
Definition createAnimeStatsEmbed (username : string) (stats : Value) : M Embed :=
  let fields (total completed watching paused dropped planning average : string) :=
    [("Total Anime", total); ("Completed", completed);
     ("Currently Watching", watching); ("Paused", paused);
     ("Dropped", dropped); ("Planning to Watch", planning);
     ("Average Score", average)] in
  let embed fs :=
    {| embed_title := "Anime Stats for " +:+ username;
       embed_fields := fs; embed_image := None |} in
  match stats with
  | VNull => throw TypeError
  | VStats st =>
      build (builder_accepts env)
        (embed (fields (pretty (totalAnime st)) (pretty (completedAnime st))
                  (pretty (watchingAnime st)) (pretty (pausedAnime st))
                  (pretty (droppedAnime st)) (pretty (planningAnime st))
                  (average_field (averageScore st))))
  | _ =>
      build (builder_accepts env)
        (embed (fields "undefined" "undefined" "undefined" "undefined"
                  "undefined" "undefined" "N/A"))
  end.

(** The [catch (globalError)] block shared by the two handlers, up to the
    message sent. *)
Definition last_resort (log_text : string) (m : Message) : M unit :=
  do! emit (Logged log_text) in
  try_catch
    (let! flags := read_flags in
     let '(is_replied, is_deferred) := flags in
     if negb is_replied && negb is_deferred then reply (Content m)
     else if is_deferred then editReply (Content m)
     else ret tt)
    (fun replyError => emit (Logged "Failed to send final error message")).

(** [handleAnimeStatsCommand(interaction)]; [username] is what
    [interaction.options.getString('username')] returns. *)
Definition handleAnimeStatsCommand (username : option string) : M unit :=
  try_catch
    (do! deferReply in
     match username with
     | None => editReply (Content MsgProvideUsername)
     | Some name =>
         if String.eqb name "" then editReply (Content MsgProvideUsername)
         else
           try_catch
             (let! stats := fetchUserAnimeStats name in
              let! statsEmbed := createAnimeStatsEmbed name stats in
              editReply (Embeds statsEmbed))
             (fun fetchError =>
                do! emit (Logged "Anime stats command processing error") in
                editReply (Content (MsgStatsFailed name)))
     end)
    (fun globalError =>
       last_resort "Critical error in anime stats command" MsgUnexpected).

(** ** AnimeCoverService *)

(** [response.data?.data?.Media?.coverImage?.extraLarge || null] *)
Definition cover_of (data : option Api.CoverData) : option string :=
  match data with
  | Some d =>
      match Api.Media d with
      | Some m =>
          match Api.coverImage m with
          | Some c =>
              match Api.extraLarge c with
              | Some url => if String.eqb url "" then None else Some url
              | None => None
              end
          | None => None
          end
      | None => None
      end
  | None => None
  end.

(** [fetchAnimeCoverById(animeId, username)]; [animeId] is a number,
    [None] for [NaN]. The identifier posted is [parseInt(animeId)], which
    reads the number back from its text: that number again when it is
    [NaN] or an integer below 2^53 in magnitude (from 1e21 on the text has
    an exponent and the source posts its leading digits only). What is
    proved of the identifier posted carries this bound, [in_exact_range]. *)
Definition fetchAnimeCoverById (animeId : option Z) : M (option string) :=
  try_catch
    (let! data := post (CoverQuery animeId)
                    (fun t => cover_api env t animeId) in
     ret (cover_of data))
    (fun error =>
       do! emit (Logged "Failed to fetch anime cover") in
       do! emit (Metric (ErrorMetric "cover_fetch_failure" "anime_cover")) in
       do! emit (Metric (ApiRequestMetric "anime_cover" "failure")) in
       throw error).

(** [parseInt(v)] for what [getString] returns: a string or [null], and
    [null] is first turned into the string "null". *)
Definition parseInt_option (v : option string) : option Z :=
  match v with
  | Some s => parseInt s
  | None => parseInt "null"
  end.

(** [!animeIdStr || isNaN(parseInt(animeIdStr))] *)
Definition invalid_anime_id (animeIdStr : option string) : bool :=
  match animeIdStr with
  | None => true
  | Some s => String.eqb s ""
  end
  || match parseInt_option animeIdStr with
     | None => true
     | Some _ => false
     end.

(** [`${animeId}`], for [NaN] and the integers below 2^53 in magnitude,
    which are printed digit by digit. *)
Definition number_text (n : option Z) : string :=
  match n with
  | Some z => pretty z
  | None => "NaN"
  end.

(** [const username = interaction.user.username] (line 327, the statement
    of [handleAnimeCoverCommand] before its [try]); [user] is
    [interaction.user] with its name, absent when the interaction carries
    none, and then the read throws. The name only goes to the logger and
    the metrics. *)
Definition read_username (user : option string) : M string :=
  match user with
  | Some username => ret username
  | None => throw TypeError
  end.

(** [handleAnimeCoverCommand(interaction)]; [animeIdStr] is what
    [interaction.options.getString('animeid')] returns. The interaction
    is one that carries its [user], as an inbound command's does: the
    read of [interaction.user.username] at line 327, [read_username],
    then succeeds, and the definition is the [try] statement that follows
    it. *)
Definition handleAnimeCoverCommand (animeIdStr : option string) : M unit :=
  try_catch
    (do! deferReply in
     if invalid_anime_id animeIdStr then editReply (Content MsgProvideAnimeId)
     else
       let animeId := parseInt_option animeIdStr in
       let! coverImage := fetchAnimeCoverById animeId in
       match coverImage with
       | None =>
           do! emit (Metric (ApiRequestMetric "anime_cover" "failure")) in
           editReply (Content MsgNoCover)
       | Some url =>
           do! emit (Metric (ApiRequestMetric "anime_cover" "success")) in
           let! embed := build (builder_accepts env)
                           {| embed_title := "Anime Cover for ID: " +:+ number_text animeId;
                              embed_fields := [];
                              embed_image := Some url |} in
           editReply (Embeds embed)
       end)
    (fun globalError =>
       last_resort "Critical error in anime cover command" MsgCoverFailed).

End Service.

(** ** Vocabulary of the statements *)

(** [h] hundredths is a value with two decimals nearest to [sum / count]:
    the two differ by at most half a hundredth. *)
Definition nearest_hundredth (sum count h : Z) : Prop :=
  2 * Z.abs (100 * sum - h * count) <= count.

Definition has_media (e : Api.Entry) : bool :=
  match Api.media e with
  | Some _ => true
  | None => false
  end.

(** Every entry the aggregation reads carries a [media] object. *)
Definition well_formed (ls : list Api.MediaList) : bool :=
  forallb has_media (all_entries ls).

Definition has_score (e : Api.Entry) : bool :=
  match Api.media e with
  | Some m =>
      match Api.averageScore m with
      | Api.SUndefined => false
      | _ => true
      end
  | None => false
  end.

(** Every entry the aggregation reads carries a [media] object whose
    [averageScore] is [null] or a number. *)
Definition scores_present (ls : list Api.MediaList) : bool :=
  forallb has_score (all_entries ls).

Definition number_of (e : Api.Entry) : option Z :=
  match Api.media e with
  | Some m =>
      match Api.averageScore m with
      | Api.SNum z => Some z
      | _ => None
      end
  | None => None
  end.

(** The scores that are numbers, in the order of [all_entries]. *)
Definition valid_scores (ls : list Api.MediaList) : list Z :=
  omap number_of (all_entries ls).

Definition sum_list (zs : list Z) : Z := foldr Z.add 0 zs.

(** No list of the collection is called [nm]. *)
Definition status_absent (ls : list Api.MediaList) (nm : string) : Prop :=
  Forall (fun l => Api.name l <> nm) ls.

(** The calls made on the interaction, in order. *)
Definition host_event (ev : Event) : option HostCall :=
  match ev with
  | Host c => Some c
  | _ => None
  end.

Definition host_calls (t : list Event) : list HostCall := omap host_event t.

Definition is_defer (c : HostCall) : bool :=
  match op c with
  | DeferReply => true
  | _ => false
  end.

(** A reply the user gets to see: a [reply] or [editReply] that the
    platform accepted. *)
Definition visible (c : HostCall) : bool := negb (is_defer c) && accepted c.

Definition defer_calls (t : list Event) : nat :=
  length (List.filter is_defer (host_calls t)).

Definition visible_replies (t : list Event) : nat :=
  length (List.filter visible (host_calls t)).

(** A [reply] issued while [deferred] was set. *)
Definition reply_while_deferred (c : HostCall) : bool :=
  match op c with
  | Reply _ => deferred_before c
  | _ => false
  end.

(** The platform accepted every call made on the interaction. *)
Definition all_accepted (t : list Event) : Prop :=
  Forall (fun c => accepted c = true) (host_calls t).

(** The upstream requests, in order. *)
Definition is_query (ev : Event) : bool :=
  match ev with
  | StatsQuery _ | CoverQuery _ => true
  | _ => false
  end.

Definition queries (t : list Event) : list Event := List.filter is_query t.

(** A world in which a command arrives: nothing acknowledged, nothing
    replied, nothing observed yet. *)
Definition fresh (w : World) : Prop :=
  deferred (interaction w) = false /\ replied (interaction w) = false /\
  trace w = [].

(** The accepted [deferReply] and the accepted [editReply] of a command
    that was acknowledged and has not been answered. *)
Definition defer_ok : HostCall :=
  {| op := DeferReply; deferred_before := false; replied_before := false;
     accepted := true |}.

Definition edit_ok (p : Payload) : HostCall :=
  {| op := EditReply p; deferred_before := true; replied_before := false;
     accepted := true |}.

(** Every value in the cache is a statistics record, as is the case for the
    cache of [AnimeStatsService], which stores nothing else. *)
Definition stats_only (c : CacheService) : Prop :=
  forall k e, cache c !! k = Some e -> exists st, value e = VStats st.

(** The reply discipline of a command, on the events of its run: one
    acknowledgement, no [reply] once [deferred] is set, at most one reply
    the user sees, and exactly one, an [editReply] after the
    acknowledgement, when the platform accepts every call. *)
Definition reply_discipline (t : list Event) : Prop :=
  defer_calls t = 1%nat /\
  Forall (fun c => reply_while_deferred c = false) (host_calls t) /\
  (visible_replies t <= 1)%nat /\
  (all_accepted t ->
   visible_replies t = 1%nat /\
   exists p, host_calls t = [defer_ok; edit_ok p]).

(** ** Data of the scenarios *)

Definition scored (s : Api.Score) : Api.Entry :=
  {| Api.media := Some {| Api.averageScore := s |} |}.

(** User "alice": one completed title rated 85, one title being watched
    without a rating. *)
Definition alice_lists : list Api.MediaList :=
  [ {| Api.name := "Completed"; Api.entries := Some [scored (Api.SNum 85)] |};
    {| Api.name := "Watching"; Api.entries := Some [scored Api.SNull] |} ].

(** An upstream that knows "alice" and the cover of title 21, has no title
    under any other identifier, and rejects requests for other users. *)
Definition sample_env : Env :=
  {| stats_api := fun _ u =>
       if String.eqb u "alice"
       then Api.Resolved
              (Some {| Api.User := Some tt;
                       Api.MediaListCollection :=
                         Some {| Api.lists := Some alice_lists |} |})
       else Api.Rejected "Request failed with status code 404";
     cover_api := fun _ id =>
       match id with
       | Some 21 =>
           Api.Resolved
             (Some {| Api.Media :=
                        Some {| Api.coverImage :=
                                  Some {| Api.extraLarge := Some "https://img.example/21.jpg" |} |} |})
       | Some (-1) => Api.Rejected "Request failed with status code 500"
       | _ => Api.Resolved (Some {| Api.Media := None |})
       end;
     latency := 120;
     builder_accepts := fun _ => true |}.

(** A command arriving at time 1000 at a service with an empty cache; the
    platform answers the interaction calls as scripted. *)
Definition arrival (answers : list bool) : World :=
  {| service_cache := Cache.new Cache.default_ttl;
     now := 1000;
     interaction := {| deferred := false; replied := false; script := answers |};
     trace := [] |}.

(** The same service at time 400000, with statistics for "bob" in the cache
    since time 0. *)
Definition stale_world : World :=
  {| service_cache :=
       (Cache.set 0 "stats_bob"
          (VStats {| totalAnime := 0; completedAnime := 0; watchingAnime := 0;
                     pausedAnime := 0; droppedAnime := 0; planningAnime := 0;
                     averageScore := JNum 0 |})
          (Cache.new Cache.default_ttl)).2;
     now := 400000;
     interaction := {| deferred := false; replied := false; script := [] |};
     trace := [] |}.

(** ** Vocabulary of the runs *)

(** [w'] is [w] after some events, all of which satisfy [ok]. *)
Definition extends (ok : Event -> Prop) (w w' : World) : Prop :=
  exists t, trace w' = trace w ++ t /\ Forall ok t.

(** The same, with the interaction left as it was. *)
Definition extends_idle (w w' : World) : Prop :=
  interaction w' = interaction w /\ extends (fun ev => host_event ev = None) w w'.

(** Every run of [m] takes the world to a related one. *)
Definition steps (R : World -> World -> Prop) {A} (m : M A) : Prop :=
  forall w, R w (m w).2.

(** An event that is no acknowledgement and no [reply] issued while
    [deferred] was set. *)
Definition lawful (ev : Event) : Prop :=
  forall c, host_event ev = Some c ->
            is_defer c = false /\ reply_while_deferred c = false.

(** An event that shows the user nothing. *)
Definition unseen (ev : Event) : Prop :=
  forall c, host_event ev = Some c -> visible c = false.

(** A command that was acknowledged and has not been answered. *)
Definition pending (w : World) : Prop :=
  deferred (interaction w) = true /\ replied (interaction w) = false.

(** A run of [m] shows the user at most one reply, and none when it
    throws. *)
Definition reply_once {A} (m : M A) : Prop :=
  forall w, exists t,
    trace (m w).2 = trace w ++ t /\
    match (m w).1 with
    | Ok _ => (visible_replies t <= 1)%nat
    | Throw _ => visible_replies t = 0%nat
    end.

(** On a pending command and with every call accepted, a run of [m] that
    returns has made one call, an [editReply]; a run that throws has made
    none and leaves the command pending. *)
Definition replying {A} (m : M A) : Prop :=
  forall w, exists t,
    trace (m w).2 = trace w ++ t /\
    (pending w -> all_accepted t ->
     match (m w).1 with
     | Ok _ => exists p, host_calls t = [edit_ok p]
     | Throw _ => host_calls t = [] /\ pending (m w).2
     end).

(** On a pending command and with every call accepted, a run of [m]
    returns after one call, an [editReply]. *)
Definition finishing {A} (m : M A) : Prop :=
  forall w, exists t,
    trace (m w).2 = trace w ++ t /\
    (pending w -> all_accepted t ->
     (exists p, host_calls t = [edit_ok p]) /\ exists a, (m w).1 = Ok a).

(** What follows [deferReply] in [handleAnimeStatsCommand]. *)
Definition stats_body (env : Env) (username : option string) : M unit :=
  match username with
  | None => editReply (Content MsgProvideUsername)
  | Some name =>
      if String.eqb name "" then editReply (Content MsgProvideUsername)
      else
        try_catch
          (let! stats := fetchUserAnimeStats env name in
           let! statsEmbed := createAnimeStatsEmbed env name stats in
           editReply (Embeds statsEmbed))
          (fun fetchError =>
             do! emit (Logged "Anime stats command processing error") in
             editReply (Content (MsgStatsFailed name)))
  end.

(** What follows [deferReply] in [handleAnimeCoverCommand]. *)
Definition cover_body (env : Env) (animeIdStr : option string) : M unit :=
  if invalid_anime_id animeIdStr then editReply (Content MsgProvideAnimeId)
  else
    let animeId := parseInt_option animeIdStr in
    let! coverImage := fetchAnimeCoverById env animeId in
    match coverImage with
    | None =>
        do! emit (Metric (ApiRequestMetric "anime_cover" "failure")) in
        editReply (Content MsgNoCover)
    | Some url =>
        do! emit (Metric (ApiRequestMetric "anime_cover" "success")) in
        let! embed := build (builder_accepts env)
                        {| embed_title := "Anime Cover for ID: " +:+ number_text animeId;
                           embed_fields := [];
                           embed_image := Some url |} in
        editReply (Embeds embed)
    end.

(** On the world [w] and with every call accepted, [m] returns after one
    call, [editReply] with the payload [p]. *)
Definition answers_with {A} (p : Payload) (m : M A) (w : World) : Prop :=
  exists t,
    trace (m w).2 = trace w ++ t /\
    (all_accepted t -> host_calls t = [edit_ok p] /\ exists a, (m w).1 = Ok a).

(** ** Vocabulary of the further properties *)

(** The five status names the aggregation looks for. *)
Definition status_names : list string :=
  ["Completed"; "Watching"; "Paused"; "Dropped"; "Planning"].

(** What [entry.media.averageScore] reads from an entry that has a [media]
    object. *)
Definition score_of (e : Api.Entry) : Api.Score :=
  match Api.media e with
  | Some m => Api.averageScore m
  | None => Api.SUndefined
  end.

(** The text has a decimal point. *)
Fixpoint has_point (s : string) : bool :=
  match s with
  | EmptyString => false
  | String c r => Ascii.eqb c "." || has_point r
  end.

(** [w'] has the cache and the clock of [w]. *)
Definition same_service (w w' : World) : Prop :=
  service_cache w' = service_cache w /\ now w' = now w.

(** [w'] has the cache of [w]. *)
Definition same_cache (w w' : World) : Prop :=
  service_cache w' = service_cache w.

(** [w'] has the entry of [w] under every key but [key]. *)
Definition same_cache_but (key : string) (w w' : World) : Prop :=
  forall k, k <> key ->
            cache (service_cache w') !! k = cache (service_cache w) !! k.

(** What [createAnimeStatsEmbed] hands to the builder for a statistics
    record. *)
Definition stats_embed (username : string) (st : AnimeStats) : Embed :=
  {| embed_title := "Anime Stats for " +:+ username;
     embed_fields :=
       [("Total Anime", pretty (totalAnime st));
        ("Completed", pretty (completedAnime st));
        ("Currently Watching", pretty (watchingAnime st));
        ("Paused", pretty (pausedAnime st));
        ("Dropped", pretty (droppedAnime st));
        ("Planning to Watch", pretty (planningAnime st));
        ("Average Score", average_field (averageScore st))];
     embed_image := None |}.

(** What [handleAnimeCoverCommand] hands to the builder. *)
Definition cover_embed (animeId : option Z) (url : string) : Embed :=
  {| embed_title := "Anime Cover for ID: " +:+ number_text animeId;
     embed_fields := [];
     embed_image := Some url |}.

(** The requests counted by [trackApiRequest]. *)
(** The numbers that binary64 holds, prints and reads back exactly: [NaN]
    and the integers below 2^53 in magnitude. On these the number that
    [parseInt] returns, its text in the title and the identifier that the
    lookup posts are what [parseInt], [number_text] and
    [fetchAnimeCoverById] say. *)
Definition in_exact_range (n : option Z) : bool :=
  match n with
  | Some z => Z.abs z <? 2 ^ 53
  | None => true
  end.

Definition is_api_metric (ev : Event) : bool :=
  match ev with
  | Metric (ApiRequestMetric _ _) => true
  | _ => false
  end.

(** * Properties *)

(** ** The cache *)

Lemma get_after_set (this : CacheService) (key : string) (v : Value) (t0 t : Z) :
  Cache.get t key (Cache.set t0 key v this).2 =
  if ttl this <? t - t0
  then (VNull, Cache.clear key (Cache.set t0 key v this).2)
  else (v, (Cache.set t0 key v this).2).
Proof.
  unfold Cache.get, Cache.set, Cache.clear; simpl.
  rewrite lookup_insert_eq; simpl.
  reflexivity.
Qed.

Lemma get_after_clear (this : CacheService) (key : string) (t : Z) :
  Cache.get t key (Cache.clear key this) = (VNull, Cache.clear key this).
Proof.
  unfold Cache.get, Cache.clear; simpl.
  now rewrite lookup_delete_eq.
Qed.

(** C2, as the code has it: an entry written at [t0] is returned by every
    read at a time [t <= t0 + ttl], the instant [t0 + ttl] included; a read
    at [t > t0 + ttl] returns [null] and deletes the entry, after which
    every read returns [null] until the key is set again. *)
Theorem cache_expiry (this : CacheService) (key : string) (v : Value) (t0 t : Z) :
  let c := (Cache.set t0 key v this).2 in
  (t <= t0 + ttl this -> Cache.get t key c = (v, c)) /\
  (t0 + ttl this < t ->
   Cache.get t key c = (VNull, Cache.clear key c) /\
   cache (Cache.get t key c).2 !! key = None /\
   forall t', (Cache.get t' key (Cache.get t key c).2).1 = VNull).
Proof.
  intros c; subst c; split; intros Ht; rewrite get_after_set.
  - destruct (Z.ltb_spec (ttl this) (t - t0)); [lia | reflexivity].
  - destruct (Z.ltb_spec (ttl this) (t - t0)); [| lia].
    split; [reflexivity |]. split.
    + simpl. apply lookup_delete_eq.
    + intros t'. simpl snd. now rewrite get_after_clear.
Qed.

Lemma cache_expiry_witness :
  let c := (Cache.set 0 "stats_alice" (VNum 7) (Cache.new 300000)).2 in
  Cache.get 299999 "stats_alice" c = (VNum 7, c) /\
  Cache.get 300001 "stats_alice" c = (VNull, Cache.clear "stats_alice" c).
Proof.
  intros c; split.
  - apply (cache_expiry (Cache.new 300000) "stats_alice" (VNum 7) 0 299999).
    simpl; lia.
  - apply (cache_expiry (Cache.new 300000) "stats_alice" (VNum 7) 0 300001).
    simpl; lia.
Defined.

(** C2 as the specification words it fails at the instant [t0 + ttl]: with
    the default time to live, a value written at time 0 is still returned
    by a read at time 300000. *)
Lemma cache_visible_at_ttl :
  let c := (Cache.set 0 "stats_alice" (VNum 7) (Cache.new Cache.default_ttl)).2 in
  300000 >= 0 + ttl c /\
  (Cache.get 300000 "stats_alice" c).1 = VNum 7 /\
  (Cache.get 300000 "stats_alice" c).1 <> VNull.
Proof.
  intros c; subst c. rewrite get_after_set. simpl.
  repeat split; [unfold Cache.default_ttl; lia | discriminate].
Qed.

(** C10: a stored [null] reads back as [null] at every time, which is also
    what [get] returns for a key that was never set and for an expired
    entry. *)
Theorem stored_null_reads_as_absent (this : CacheService) (key : string) (t0 t : Z) :
  (Cache.get t key (Cache.set t0 key VNull this).2).1 = VNull /\
  (cache this !! key = None -> (Cache.get t key this).1 = VNull) /\
  (forall e, cache this !! key = Some e -> ttl this < t - timestamp e ->
             (Cache.get t key this).1 = VNull).
Proof.
  split; [| split].
  - rewrite get_after_set. now destruct (ttl this <? t - t0).
  - intros Hnone. unfold Cache.get. now rewrite Hnone.
  - intros e He Hexp. unfold Cache.get. rewrite He.
    destruct (Z.ltb_spec (ttl this) (t - timestamp e)); [reflexivity | lia].
Qed.

Lemma stored_null_reads_as_absent_witness :
  (Cache.get 5 "k" (Cache.set 0 "k" VNull (Cache.new 300000)).2).1 = VNull /\
  (Cache.get 5 "k" (Cache.new 300000)).1 = VNull /\
  (Cache.get 300001 "k" (Cache.set 0 "k" (VNum 7) (Cache.new 300000)).2).1 = VNull.
Proof.
  split; [| split].
  - exact (proj1 (stored_null_reads_as_absent (Cache.new 300000) "k" 0 5)).
  - apply (proj1 (proj2 (stored_null_reads_as_absent (Cache.new 300000) "k" 0 5))).
    reflexivity.
  - apply (proj2 (proj2 (stored_null_reads_as_absent
             (Cache.set 0 "k" (VNum 7) (Cache.new 300000)).2 "k" 0 300001))
             {| value := VNum 7; timestamp := 0 |}).
    + simpl. apply lookup_insert_eq.
    + simpl. lia.
Defined.

(** ** Binary64 division followed by [toFixed(2)] *)

Lemma round_half_even_near (n d : Z) :
  0 < d -> 2 * Z.abs (round_half_even n d * d - n) <= d.
Proof.
  intros Hd. unfold round_half_even.
  pose proof (Z.div_mod n d ltac:(lia)) as Hdm.
  pose proof (Z.mod_pos_bound n d Hd) as Hr.
  destruct (Z.ltb_spec (2 * (n mod d)) d);
    [| destruct (Z.ltb_spec d (2 * (n mod d))); [| destruct (Z.even (n / d))]]; nia.
Qed.

Lemma round_half_even_lower (n d : Z) :
  0 < d -> n / d <= round_half_even n d.
Proof.
  intros Hd. unfold round_half_even.
  destruct (2 * (n mod d) <? d); [lia |].
  destruct (d <? 2 * (n mod d)); [lia |].
  destruct (Z.even (n / d)); lia.
Qed.

(** For a dividend up to 2^45 the exponent chosen is negative and leaves at
    least 53 bits in the quotient. *)
Lemma js_div_pos_shape (a b : Z) :
  0 < a <= 2 ^ 45 -> 0 < b ->
  let x := js_div_pos a b in
  expo x < 0 /\
  mant x = round_half_even (a * 2 ^ (- expo x)) b /\
  2 ^ 52 <= a * 2 ^ (- expo x) / b.
Proof.
  intros Ha Hb x.
  assert (Hla : 0 <= Z.log2 a <= 45).
  { split; [apply Z.log2_nonneg |].
    rewrite <- (Z.log2_pow2 45) by lia. apply Z.log2_le_mono; lia. }
  pose proof (Z.log2_nonneg b) as Hlb.
  destruct (Z.log2_spec a ltac:(lia)) as [Ha1 Ha2].
  destruct (Z.log2_spec b Hb) as [Hb1 Hb2].
  set (e0 := Z.log2 a - Z.log2 b - 52) in *.
  assert (He0 : e0 < 0) by (unfold e0; lia).
  assert (Hs0 : scaled a b e0 = (a * 2 ^ (- e0), b)).
  { unfold scaled. destruct (Z.leb_spec 0 e0); [lia | reflexivity]. }
  assert (Hs1 : scaled a b (e0 - 1) = (a * 2 ^ (- (e0 - 1)), b)).
  { unfold scaled. destruct (Z.leb_spec 0 (e0 - 1)); [lia | reflexivity]. }
  subst x. unfold js_div_pos. fold e0. rewrite Hs0. simpl fst; simpl snd.
  destruct (Z.leb_spec (2 ^ 52) (a * 2 ^ (- e0) / b)) as [Hq | Hq].
  - rewrite Hs0. simpl. auto.
  - rewrite Hs1. simpl. split; [lia |]. split; [reflexivity |].
    apply Z.div_le_lower_bound; [lia |].
    replace (- (e0 - 1)) with (53 + Z.log2 b - Z.log2 a) by (unfold e0; lia).
    assert (Hp : 2 ^ Z.log2 a * 2 ^ (53 + Z.log2 b - Z.log2 a)
                 = 2 ^ 52 * 2 ^ Z.succ (Z.log2 b)).
    { rewrite <- !Z.pow_add_r by lia. f_equal. lia. }
    assert (0 < 2 ^ (53 + Z.log2 b - Z.log2 a)) by (apply Z.pow_pos_nonneg; lia).
    nia.
Qed.

(** The error of the division is too small to move the quotient across a
    rounding boundary of the second decimal. *)
Lemma js_div_pos_nearest (a b : Z) :
  0 < a <= 2 ^ 45 -> 0 < b ->
  nearest_hundredth a b (hundredths (js_div_pos a b)) /\ 0 < mant (js_div_pos a b).
Proof.
  intros Ha Hb.
  destruct (js_div_pos_shape a b Ha Hb) as (He & Hm & Hq).
  set (x := js_div_pos a b) in *.
  set (P := 2 ^ (- expo x)) in *.
  assert (HP : 0 < P) by (apply Z.pow_pos_nonneg; lia).
  pose proof (round_half_even_near (a * P) b Hb) as Hnear.
  pose proof (round_half_even_lower (a * P) b Hb) as Hlow.
  rewrite <- Hm in Hnear, Hlow.
  assert (Hmpos : 2 ^ 52 <= mant x) by lia.
  assert (H52 : 0 < 2 ^ 52) by reflexivity.
  split; [| lia].
  unfold nearest_hundredth, hundredths.
  destruct (Z.leb_spec 0 (expo x)); [lia |].
  replace (2 ^ (1 - expo x)) with (2 * P)
    by (unfold P; rewrite <- Z.pow_succ_r by lia; f_equal; lia).
  rewrite (Z.abs_eq (mant x)) by lia.
  fold P.
  set (h := (200 * mant x + P) / (2 * P)).
  pose proof (Z.div_mod (200 * mant x + P) (2 * P) ltac:(lia)) as Hdm.
  pose proof (Z.mod_pos_bound (200 * mant x + P) (2 * P) ltac:(lia)) as Hr.
  fold h in Hdm.
  assert (HaP : 2 ^ 52 * b <= a * P).
  { pose proof (Z.mul_div_le (a * P) b Hb) as Hle.
    apply Z.le_trans with (b * (a * P / b)); [| exact Hle].
    rewrite (Z.mul_comm b). apply Z.mul_le_mono_nonneg_r; lia. }
  assert (HbP : 100 * b < P).
  { assert (a * P <= 2 ^ 45 * P) by (apply Z.mul_le_mono_nonneg_r; lia).
    change (2 ^ 52) with (128 * 2 ^ 45) in HaP.
    assert (0 < 2 ^ 45) by lia. nia. }
  clear Hq Hmpos Hlow HaP.
  assert (H1 : 2 * Z.abs (P * (100 * a - h * b)) < P * (b + 1)).
  { assert (H2 : 2 * Z.abs (100 * (mant x * b - a * P)) <= 100 * b) by lia.
    assert (H3 : Z.abs (b * (200 * mant x - 2 * P * h)) <= b * P).
    { rewrite Z.abs_mul, (Z.abs_eq b) by lia.
      apply Z.mul_le_mono_nonneg_l; lia. }
    replace (P * (100 * a - h * b))
      with (- (100 * (mant x * b - a * P)) + (b * (200 * mant x - 2 * P * h)) / 2).
    2:{ replace (b * (200 * mant x - 2 * P * h))
          with ((b * (100 * mant x - P * h)) * 2) by ring.
        rewrite Z.div_mul by lia. ring. }
    assert (H4 : 2 * Z.abs (b * (200 * mant x - 2 * P * h) / 2) <= b * P).
    { replace (b * (200 * mant x - 2 * P * h))
        with ((b * (100 * mant x - P * h)) * 2) in * by ring.
      rewrite Z.div_mul by lia. lia. }
    lia. }
  rewrite Z.abs_mul, (Z.abs_eq P) in H1 by lia.
  pose proof (Z.abs_nonneg (100 * a - h * b)) as HA.
  set (A := Z.abs (100 * a - h * b)) in *.
  clearbody A. clear - H1 HA HP Hb.
  apply Z.nlt_ge; intros Hlt.
  assert (P * (b + 1) <= P * (2 * A)) by (apply Z.mul_le_mono_nonneg_l; lia).
  lia.
Qed.

(** [(s / n).toFixed(2)] is the sign of [s] followed by a nearest value with
    two decimals of [|s| / n]. *)
Lemma toFixed2_js_div (s n : Z) :
  Z.abs s <= 2 ^ 45 -> 0 < n ->
  exists h, nearest_hundredth (Z.abs s) n h /\
            toFixed2 (js_div s n) = (if s <? 0 then "-" else "") +:+ fixed2 h.
Proof.
  intros Hs Hn. unfold js_div, toFixed2.
  destruct (Z.eqb_spec s 0) as [-> | Hs0].
  - exists 0. split; [unfold nearest_hundredth; simpl; lia | reflexivity].
  - destruct (js_div_pos_nearest (Z.abs s) n ltac:(lia) Hn) as [Hnear Hpos].
    exists (hundredths (js_div_pos (Z.abs s) n)). split; [exact Hnear |].
    set (x := js_div_pos (Z.abs s) n) in *. clearbody x. simpl mant.
    assert (Hh : hundredths {| mant := Z.sgn s * mant x; expo := expo x |}
                 = hundredths x).
    { unfold hundredths; simpl.
      replace (Z.abs (Z.sgn s * mant x)) with (Z.abs (mant x)); [reflexivity |].
      destruct s; [congruence | |]; simpl Z.sgn; lia. }
    rewrite Hh. f_equal.
    destruct (Z.ltb_spec s 0), (Z.ltb_spec (Z.sgn s * mant x) 0);
      try reflexivity; exfalso; nia.
Qed.

(** ** The aggregation *)

Lemma category_absent (ls : list Api.MediaList) (nm : string) :
  status_absent ls nm -> category ls nm = [].
Proof.
  unfold status_absent, category. induction 1 as [| l ls Hl _ IH]; [reflexivity |].
  simpl. destruct (String.eqb_spec (Api.name l) nm); [contradiction | exact IH].
Qed.

Lemma entry_scores_total (es : list Api.Entry) :
  forallb has_media es = true ->
  exists ss, entry_scores es = Ok ss /\ length ss = length es.
Proof.
  induction es as [| e es IH]; simpl; intros H.
  - exists []. auto.
  - apply andb_prop in H as [He Hes]. destruct (IH Hes) as (ss & -> & Hlen).
    unfold entry_score, has_media in *. destruct (Api.media e); [| discriminate].
    eexists; split; [reflexivity | simpl; congruence].
Qed.

Lemma entry_scores_numbers (es : list Api.Entry) :
  forallb has_score es = true ->
  exists ss, entry_scores es = Ok ss /\
             List.filter not_null ss = map Api.SNum (omap number_of es).
Proof.
  induction es as [| e es IH]; simpl; intros H.
  - exists []. auto.
  - apply andb_prop in H as [He Hes]. destruct (IH Hes) as (ss & -> & Hf).
    destruct e as [[[[| | z]] |]]; try discriminate He;
      eexists; (split; [reflexivity |]); simpl; rewrite Hf; reflexivity.
Qed.

Lemma has_score_media (es : list Api.Entry) :
  forallb has_score es = true -> forallb has_media es = true.
Proof.
  induction es as [| e es IH]; simpl; [reflexivity |].
  intros H. apply andb_prop in H as [He Hes]. rewrite (IH Hes), andb_true_r.
  unfold has_score, has_media in *. now destruct (Api.media e).
Qed.

Lemma sum_scores_numbers (zs : list Z) :
  sum_scores (map Api.SNum zs) = Some (sum_list zs).
Proof.
  unfold sum_scores.
  enough (H : forall a, fold_left add_score (map Api.SNum zs) (Some a)
                        = Some (a + sum_list zs)) by apply (H 0).
  induction zs as [| z zs IH]; intros a; simpl.
  - f_equal. lia.
  - rewrite IH. f_equal. lia.
Qed.

Lemma abs_sum_list (zs : list Z) :
  Z.abs (sum_list zs) <= sum_list (map Z.abs zs).
Proof.
  induction zs as [| z zs IH]; simpl; lia.
Qed.

(** The statistics record in terms of the five categories, for a collection
    whose entries all carry [media]. *)
Lemma aggregate_ok (ls : list Api.MediaList) :
  well_formed ls = true ->
  exists scores,
    entry_scores (all_entries ls) = Ok scores /\
    aggregate (Some ls) =
    Ok {| totalAnime := length (all_entries ls);
          completedAnime := length (category ls "Completed");
          watchingAnime := length (category ls "Watching");
          pausedAnime := length (category ls "Paused");
          droppedAnime := length (category ls "Dropped");
          planningAnime := length (category ls "Planning");
          averageScore :=
            if (0 <? length (List.filter not_null scores))%nat
            then JStr (average_text (List.filter not_null scores))
            else JNum 0 |}.
Proof.
  intros Hwf. destruct (entry_scores_total _ Hwf) as (ss & Hss & _).
  exists ss. split; [exact Hss |]. unfold aggregate. now rewrite Hss.
Qed.

(** C4: when the aggregation returns a record, which it does for every
    collection whose entries carry [media], [totalAnime] is the sum of the
    five status counts; for the empty collection all of them are zero. *)
Theorem total_is_sum_of_status_counts :
  (forall ls, well_formed ls = true -> exists st, aggregate (Some ls) = Ok st) /\
  (forall lists st,
     aggregate lists = Ok st ->
     totalAnime st =
     (completedAnime st + watchingAnime st + pausedAnime st
      + droppedAnime st + planningAnime st)%nat) /\
  (exists st,
     aggregate (Some []) = Ok st /\ totalAnime st = 0%nat /\
     completedAnime st = 0%nat /\ watchingAnime st = 0%nat /\
     pausedAnime st = 0%nat /\ droppedAnime st = 0%nat /\
     planningAnime st = 0%nat).
Proof.
  split; [| split].
  - intros ls Hwf. destruct (aggregate_ok ls Hwf) as (ss & _ & ->). eauto.
  - intros [ls |] st; simpl; [| discriminate].
    destruct (entry_scores (all_entries ls)); [| discriminate].
    intros [= <-]; simpl. unfold all_entries. rewrite !length_app. lia.
  - eexists. split; [reflexivity |]. simpl. tauto.
Qed.

Lemma total_is_sum_of_status_counts_witness :
  exists st,
    aggregate (Some [ {| Api.name := "Completed";
                         Api.entries := Some [ {| Api.media := Some {| Api.averageScore := Api.SNum 85 |} |} ] |};
                      {| Api.name := "Watching";
                         Api.entries := Some [ {| Api.media := Some {| Api.averageScore := Api.SNull |} |} ] |} ])
    = Ok st /\
    totalAnime st = 2%nat /\
    totalAnime st =
    (completedAnime st + watchingAnime st + pausedAnime st
     + droppedAnime st + planningAnime st)%nat.
Proof.
  destruct total_is_sum_of_status_counts as (Htotal & Hsum & _).
  edestruct Htotal as [st Hst]; [| exists st; split; [exact Hst |]].
  - reflexivity.
  - split; [| exact (Hsum _ _ Hst)].
    vm_compute in Hst. injection Hst as <-. reflexivity.
Defined.

(** C5 as the specification words it fails: with the [lists] field missing
    the aggregation throws, and so it does for an entry without [media]. *)
Lemma aggregate_throws_without_lists :
  aggregate None = Throw TypeError /\
  aggregate (Some [ {| Api.name := "Completed";
                       Api.entries := Some [ {| Api.media := None |} ] |} ])
  = Throw TypeError.
Proof. split; reflexivity. Qed.

(** C5, as the code has it: for a [lists] array of list objects (none of
    its elements is [null]) whose entries all carry [media] the
    aggregation returns a record; a status with no list of its name counts
    zero; the empty array gives zero counts and the average left at the
    number 0, which the embed shows as N/A. With [lists] missing the
    aggregation throws a [TypeError]. *)
Theorem aggregate_defaults :
  aggregate None = Throw TypeError /\
  forall ls : list Api.MediaList,
    well_formed ls = true ->
    exists st,
      aggregate (Some ls) = Ok st /\
      (status_absent ls "Completed" -> completedAnime st = 0%nat) /\
      (status_absent ls "Watching" -> watchingAnime st = 0%nat) /\
      (status_absent ls "Paused" -> pausedAnime st = 0%nat) /\
      (status_absent ls "Dropped" -> droppedAnime st = 0%nat) /\
      (status_absent ls "Planning" -> planningAnime st = 0%nat) /\
      (ls = [] ->
       st = {| totalAnime := 0; completedAnime := 0; watchingAnime := 0;
               pausedAnime := 0; droppedAnime := 0; planningAnime := 0;
               averageScore := JNum 0 |} /\
       average_field (averageScore st) = "N/A").
Proof.
  split; [reflexivity |].
  intros ls Hwf. destruct (aggregate_ok ls Hwf) as (ss & Hss & ->).
  eexists; split; [reflexivity |]. simpl.
  repeat (split; [intros Habs; now rewrite (category_absent _ _ Habs) |]).
  intros ->. simpl in Hss. injection Hss as <-. split; reflexivity.
Qed.

Lemma aggregate_defaults_witness :
  exists st,
    aggregate (Some [ {| Api.name := "Completed";
                         Api.entries := Some [ {| Api.media := Some {| Api.averageScore := Api.SNum 85 |} |} ] |} ])
    = Ok st /\
    completedAnime st = 1%nat /\ watchingAnime st = 0%nat /\
    pausedAnime st = 0%nat /\ droppedAnime st = 0%nat /\
    planningAnime st = 0%nat.
Proof.
  edestruct (proj2 aggregate_defaults) as (st & Hst & _ & Hw & Hp & Hd & Hpl & _);
    [| exists st; split; [exact Hst |]].
  - reflexivity.
  - assert (Habs : forall nm, nm <> "Completed" ->
              status_absent [ {| Api.name := "Completed";
                                 Api.entries := Some [ {| Api.media := Some {| Api.averageScore := Api.SNum 85 |} |} ] |} ] nm).
    { intros nm Hnm. repeat constructor. simpl. congruence. }
    split; [| repeat split; [apply Hw | apply Hp | apply Hd | apply Hpl];
              apply Habs; discriminate].
    vm_compute in Hst. injection Hst as <-. reflexivity.
Defined.

(** C3 as the specification words it fails twice: when every score is
    [null] the average stays the number 0, not the text "unavailable"; and
    a missing score is not discarded, it turns the average into "NaN". *)
Lemma average_of_null_and_missing_scores :
  (exists st,
     aggregate (Some [ {| Api.name := "Completed";
                          Api.entries := Some [ {| Api.media := Some {| Api.averageScore := Api.SNull |} |};
                                                {| Api.media := Some {| Api.averageScore := Api.SNull |} |} ] |} ])
     = Ok st /\
     averageScore st = JNum 0 /\ averageScore st <> JStr "unavailable") /\
  (exists st,
     aggregate (Some [ {| Api.name := "Completed";
                          Api.entries := Some [ {| Api.media := Some {| Api.averageScore := Api.SNum 80 |} |};
                                                {| Api.media := Some {| Api.averageScore := Api.SUndefined |} |} ] |} ])
     = Ok st /\
     averageScore st = JStr "NaN" /\ averageScore st <> JStr "80.00").
Proof.
  split; eexists; (split; [reflexivity |]); simpl; split;
    [reflexivity | discriminate | reflexivity | discriminate].
Qed.

(** C3, as the code has it: for a collection whose entries all carry a
    score that is [null] or an integer (their magnitudes adding up to at
    most 2^45), the [null] scores are discarded; when a score remains,
    [averageScore] is the text, with two decimals, of a value nearest to
    the arithmetic mean of the remaining scores; when none remains,
    [averageScore] stays the number 0, which the embed shows as N/A. *)
Theorem average_score_rounding (ls : list Api.MediaList) :
  scores_present ls = true ->
  sum_list (map Z.abs (valid_scores ls)) <= 2 ^ 45 ->
  exists st,
    aggregate (Some ls) = Ok st /\
    (valid_scores ls = [] ->
     averageScore st = JNum 0 /\ average_field (averageScore st) = "N/A") /\
    (valid_scores ls <> [] ->
     exists h,
       nearest_hundredth (Z.abs (sum_list (valid_scores ls)))
         (Z.of_nat (length (valid_scores ls))) h /\
       averageScore st =
       JStr ((if sum_list (valid_scores ls) <? 0 then "-" else "") +:+ fixed2 h)).
Proof.
  intros Hpres Hbound.
  destruct (entry_scores_numbers _ Hpres) as (ss & Hss & Hvalid).
  fold (valid_scores ls) in Hvalid.
  destruct (aggregate_ok ls (has_score_media _ Hpres)) as (ss' & Hss' & ->).
  rewrite Hss in Hss'. injection Hss' as <-.
  eexists; split; [reflexivity |]. simpl. rewrite Hvalid, length_map.
  split.
  - intros ->. simpl. auto.
  - intros Hne.
    destruct (valid_scores ls) as [| z zs] eqn:Hzs; [congruence |].
    rewrite <- Hzs in *. clear Hne.
    assert (Hlen : (0 < length (valid_scores ls))%nat) by (rewrite Hzs; simpl; lia).
    apply Nat.ltb_lt in Hlen as Hlenb. rewrite Hlenb.
    unfold average_text. rewrite sum_scores_numbers, length_map.
    destruct (toFixed2_js_div (sum_list (valid_scores ls))
                (Z.of_nat (length (valid_scores ls)))) as (h & Hnear & Htext).
    + pose proof (abs_sum_list (valid_scores ls)). lia.
    + lia.
    + exists h. split; [exact Hnear |]. now rewrite Htext.
Qed.

Lemma average_score_rounding_witness :
  exists st,
    aggregate (Some [ {| Api.name := "Completed";
                         Api.entries := Some [ {| Api.media := Some {| Api.averageScore := Api.SNum 80 |} |};
                                               {| Api.media := Some {| Api.averageScore := Api.SNum 90 |} |} ] |};
                      {| Api.name := "Dropped";
                         Api.entries := Some [ {| Api.media := Some {| Api.averageScore := Api.SNull |} |};
                                               {| Api.media := Some {| Api.averageScore := Api.SNum 70 |} |} ] |} ])
    = Ok st /\
    averageScore st = JStr "80.00".
Proof.
  edestruct average_score_rounding as (st & Hst & _); [| | exists st; split; [exact Hst |]].
  - reflexivity.
  - vm_compute. congruence.
  - vm_compute in Hst. injection Hst as <-. reflexivity.
Defined.

(** ** The statistics fetch and the cache *)

Lemma fetch_and_aggregate_ok (env : Env) (username : string) (w w1 : World) (v : Value) :
  fetch_and_aggregate env username w = (Ok v, w1) ->
  exists st,
    v = VStats st /\
    service_cache w1 =
    (Cache.set (now w1) ("stats_" +:+ username) v (service_cache w)).2.
Proof.
  unfold fetch_and_aggregate, bind, post, lift, throw, cache_set.
  destruct (stats_api env (now w) username) as [msg | [d |]]; simpl; try discriminate.
  destruct (Api.User d); simpl; try discriminate.
  destruct (Api.MediaListCollection d) as [c |]; simpl; try discriminate.
  destruct (aggregate (Api.lists c)) as [st | err]; simpl; try discriminate.
  intros [= <- <-]. exists st. split; reflexivity.
Qed.

Lemma fetch_and_aggregate_throw (env : Env) (username : string) (w w1 : World) (err : Error) :
  fetch_and_aggregate env username w = (Throw err, w1) ->
  service_cache w1 = service_cache w.
Proof.
  unfold fetch_and_aggregate, bind, post, lift, throw, cache_set.
  destruct (stats_api env (now w) username) as [msg | [d |]]; simpl;
    try (intros [= _ <-]; reflexivity).
  destruct (Api.User d); simpl; try (intros [= _ <-]; reflexivity).
  destruct (Api.MediaListCollection d) as [c |]; simpl;
    try (intros [= _ <-]; reflexivity).
  destruct (aggregate (Api.lists c)) as [st | e]; simpl;
    [discriminate | intros [= _ <-]; reflexivity].
Qed.

(** A lookup that returns a truthy value found an unexpired entry holding
    it and left the cache as it was. *)
Lemma get_truthy (t : Z) (key : string) (c : CacheService) :
  truthy (Cache.get t key c).1 = true ->
  (Cache.get t key c).2 = c /\
  exists e, cache c !! key = Some e /\ value e = (Cache.get t key c).1.
Proof.
  unfold Cache.get. destruct (cache c !! key) as [e |]; simpl; [| discriminate].
  destruct (ttl c <? t - timestamp e); simpl; [discriminate |]. eauto.
Qed.

Lemma get_unexpired (t : Z) (key : string) (c : CacheService) (e : CacheEntry) :
  cache c !! key = Some e -> t - timestamp e <= ttl c ->
  Cache.get t key c = (value e, c).
Proof.
  intros He Ht. unfold Cache.get. rewrite He.
  destruct (Z.ltb_spec (ttl c) (t - timestamp e)); [lia | reflexivity].
Qed.

(** What a cache hit does: the cached value is returned, the hit is
    counted, nothing else changes. *)
Lemma fetch_hit (env : Env) (username : string) (w : World) (e : CacheEntry) :
  cache (service_cache w) !! ("stats_" +:+ username) = Some e ->
  truthy (value e) = true ->
  now w - timestamp e <= ttl (service_cache w) ->
  fetchUserAnimeStats env username w =
  (Ok (value e),
   {| service_cache := service_cache w; now := now w;
      interaction := interaction w;
      trace := trace w ++ [Metric (CacheHit "anime_stats")] |}).
Proof.
  intros He Hv Ht. unfold fetchUserAnimeStats, bind, cache_get.
  rewrite (get_unexpired _ _ _ _ He Ht), Hv. reflexivity.
Qed.

Lemma queries_app (t1 t2 : list Event) :
  queries (t1 ++ t2) = queries t1 ++ queries t2.
Proof. apply List.filter_app. Qed.

(** C6: in a cache that holds statistics records only, an unexpired entry
    under [stats_<username>] is returned as it is, the cache is left alone
    and no request is sent; and whatever a fetch returned is in the cache
    afterwards, so that a second fetch within the time to live of that
    entry returns the same value without a request. *)
Theorem cached_stats_skip_upstream (env : Env) (username : string) :
  (forall w e,
     stats_only (service_cache w) ->
     cache (service_cache w) !! ("stats_" +:+ username) = Some e ->
     now w - timestamp e <= ttl (service_cache w) ->
     exists w',
       fetchUserAnimeStats env username w = (Ok (value e), w') /\
       service_cache w' = service_cache w /\
       queries (trace w') = queries (trace w)) /\
  (forall w v w1,
     fetchUserAnimeStats env username w = (Ok v, w1) ->
     exists e,
       cache (service_cache w1) !! ("stats_" +:+ username) = Some e /\
       value e = v /\
       (cache (service_cache w) !! ("stats_" +:+ username) = None ->
        timestamp e = now w1) /\
       forall w2,
         service_cache w2 = service_cache w1 ->
         now w2 - timestamp e <= ttl (service_cache w1) ->
         exists w3,
           fetchUserAnimeStats env username w2 = (Ok v, w3) /\
           service_cache w3 = service_cache w2 /\
           queries (trace w3) = queries (trace w2)).
Proof.
  assert (Hhit : forall w e,
            cache (service_cache w) !! ("stats_" +:+ username) = Some e ->
            truthy (value e) = true ->
            now w - timestamp e <= ttl (service_cache w) ->
            exists w',
              fetchUserAnimeStats env username w = (Ok (value e), w') /\
              service_cache w' = service_cache w /\
              queries (trace w') = queries (trace w)).
  { intros w e He Hv Ht. eexists. split; [apply (fetch_hit env username w e He Hv Ht) |].
    simpl. split; [reflexivity |]. rewrite queries_app. simpl. apply app_nil_r. }
  split.
  - intros w e Hstats He Ht. apply Hhit; [exact He | | exact Ht].
    destruct (Hstats _ _ He) as [st ->]. reflexivity.
  - intros w v w1 Hfetch.
    assert (Hentry : exists e,
              cache (service_cache w1) !! ("stats_" +:+ username) = Some e /\
              value e = v /\ truthy v = true /\
              (cache (service_cache w) !! ("stats_" +:+ username) = None ->
               timestamp e = now w1)).
    { revert Hfetch. unfold fetchUserAnimeStats, bind at 1, cache_get.
      destruct (Cache.get (now w) ("stats_" +:+ username) (service_cache w))
        as [v0 c] eqn:Hget.
      destruct (truthy v0) eqn:Htruthy.
      - unfold bind, emit, ret; simpl. intros [= <- <-]; simpl.
        pose proof (get_truthy (now w) ("stats_" +:+ username) (service_cache w)) as Hg.
        rewrite Hget in Hg; simpl in Hg. destruct (Hg Htruthy) as (-> & e & He & Hv).
        exists e. repeat split; auto. intros Hnone. congruence.
      - unfold try_catch.
        destruct (fetch_and_aggregate env username (set_cache c w))
          as [[v1 | err] w'] eqn:Hfa.
        + intros [= <- <-]. destruct (fetch_and_aggregate_ok _ _ _ _ _ Hfa) as (st & -> & ->).
          eexists. split; [simpl; apply lookup_insert_eq |]. repeat split.
        + unfold bind, emit, throw; simpl. discriminate. }
    destruct Hentry as (e & He & Hv & Htruthy & Hstamp). exists e. split; [exact He |].
    split; [exact Hv |]. split; [exact Hstamp |]. intros w2 Hc Ht. subst v.
    apply Hhit; [now rewrite Hc | exact Htruthy | now rewrite Hc].
Qed.

Lemma cached_stats_skip_upstream_witness :
  exists v w1 w3,
    fetchUserAnimeStats sample_env "alice" (arrival []) = (Ok v, w1) /\
    queries (trace w1) = [StatsQuery "alice"] /\
    fetchUserAnimeStats sample_env "alice"
      {| service_cache := service_cache w1; now := now w1 + 300000;
         interaction := interaction w1; trace := trace w1 |} = (Ok v, w3) /\
    queries (trace w3) = [StatsQuery "alice"].
Proof.
  destruct (fetchUserAnimeStats sample_env "alice" (arrival [])) as [r w1] eqn:Hfirst.
  assert (Hq : queries (trace w1) = [StatsQuery "alice"] /\ exists v, r = Ok v).
  { vm_compute in Hfirst. injection Hfirst as <- <-. split; [reflexivity | eauto]. }
  destruct Hq as (Hq & v & ->).
  destruct (proj2 (cached_stats_skip_upstream sample_env "alice") _ _ _ Hfirst)
    as (e & He & Hv & _ & Hsecond).
  destruct (Hsecond {| service_cache := service_cache w1; now := now w1 + 300000;
                       interaction := interaction w1; trace := trace w1 |})
    as (w3 & Hfetch & _ & Hq3).
  - reflexivity.
  - vm_compute in Hfirst. injection Hfirst as _ <-.
    vm_compute in He. injection He as <-. simpl. lia.
  - exists v, w1, w3. simpl in Hq3. rewrite Hq3. auto.
Defined.

(** C9 as worded fails on an expired entry: the lookup that opens the
    fetch deletes it, so a fetch that then fails leaves another cache
    behind. *)
Lemma failed_fetch_evicts_expired_entry :
  exists err w',
    fetchUserAnimeStats sample_env "bob" stale_world = (Throw err, w') /\
    is_Some (cache (service_cache stale_world) !! "stats_bob") /\
    cache (service_cache w') !! "stats_bob" = None /\
    service_cache w' <> service_cache stale_world.
Proof.
  destruct (fetchUserAnimeStats sample_env "bob" stale_world) as [r w'] eqn:Hf.
  vm_compute in Hf. injection Hf as <- <-.
  eexists _, _. split; [reflexivity |].
  split; [vm_compute; eauto |]. split; [vm_compute; reflexivity |].
  intros Heq. apply (f_equal (fun c => cache c !! "stats_bob")) in Heq.
  vm_compute in Heq. discriminate.
Qed.

(** A lookup only ever removes the entry of its own key. *)
Lemma get_shrinks (t : Z) (key : string) (c : CacheService) :
  (forall k e, cache (Cache.get t key c).2 !! k = Some e -> cache c !! k = Some e) /\
  (forall k, k <> key -> cache (Cache.get t key c).2 !! k = cache c !! k).
Proof.
  unfold Cache.get. destruct (cache c !! key) as [e0 |] eqn:He0; simpl; [| auto].
  destruct (ttl c <? t - timestamp e0); simpl; [| auto]. split.
  - intros k e. rewrite lookup_delete. case_decide; [discriminate | auto].
  - intros k Hk. now rewrite lookup_delete_ne.
Qed.

(** In a cache of statistics records, a lookup that returns a falsy value
    leaves no entry under its key. *)
Lemma get_falsy (t : Z) (key : string) (c : CacheService) :
  stats_only c -> truthy (Cache.get t key c).1 = false ->
  cache (Cache.get t key c).2 !! key = None.
Proof.
  intros Hstats. unfold Cache.get.
  destruct (cache c !! key) as [e0 |] eqn:He0; simpl; [| auto].
  destruct (ttl c <? t - timestamp e0); simpl.
  - intros _. apply lookup_delete_eq.
  - destruct (Hstats _ _ He0) as [st ->]. discriminate.
Qed.

(** The invariant of the service cache: it starts empty and a fetch stores
    statistics records only. *)
Lemma stats_only_new (ttl : Z) : stats_only (Cache.new ttl).
Proof. intros k e. unfold Cache.new; simpl. now rewrite lookup_empty. Qed.

Lemma fetch_keeps_stats_only (env : Env) (username : string) (w : World) :
  stats_only (service_cache w) ->
  stats_only (service_cache (fetchUserAnimeStats env username w).2).
Proof.
  intros Hstats.
  destruct (get_shrinks (now w) ("stats_" +:+ username) (service_cache w)) as [Hsub _].
  assert (Hget : stats_only (Cache.get (now w) ("stats_" +:+ username) (service_cache w)).2).
  { intros k e He. apply (Hstats k e), Hsub, He. }
  unfold fetchUserAnimeStats, bind at 1, cache_get.
  destruct (Cache.get (now w) ("stats_" +:+ username) (service_cache w)) as [v0 c].
  simpl in Hget. destruct (truthy v0); [exact Hget |].
  unfold try_catch.
  destruct (fetch_and_aggregate env username (set_cache c w)) as [[v1 | err] w1] eqn:Hfa.
  - destruct (fetch_and_aggregate_ok _ _ _ _ _ Hfa) as (st & -> & Hc). simpl.
    rewrite Hc. unfold stats_only. simpl. intros k e. rewrite lookup_insert. case_decide; [intros [= <-]; eauto | apply Hget].
  - unfold bind, emit, throw; simpl.
    rewrite (fetch_and_aggregate_throw _ _ _ _ _ Hfa). exact Hget.
Qed.

Lemma fetch_throw_cache (env : Env) (username : string) (w w' : World) (err : Error) :
  fetchUserAnimeStats env username w = (Throw err, w') ->
  service_cache w' = (Cache.get (now w) ("stats_" +:+ username) (service_cache w)).2 /\
  truthy (Cache.get (now w) ("stats_" +:+ username) (service_cache w)).1 = false.
Proof.
  unfold fetchUserAnimeStats, bind at 1, cache_get.
  destruct (Cache.get (now w) ("stats_" +:+ username) (service_cache w))
    as [v0 c] eqn:Hget.
  destruct (truthy v0) eqn:Htruthy.
  - unfold bind, emit, ret; simpl. discriminate.
  - unfold try_catch.
    destruct (fetch_and_aggregate env username (set_cache c w))
      as [[v1 | e] w1] eqn:Hfa; [discriminate |].
    unfold bind, emit, throw; simpl. intros [= _ <-]; simpl.
    rewrite (fetch_and_aggregate_throw _ _ _ _ _ Hfa). auto.
Qed.

(** C9, as the code has it: a fetch that raises writes no entry. The cache
    it leaves is the one its opening lookup left: every entry of it was
    there before, the entries of other keys are untouched, and an expired
    entry under [stats_<username>] is gone. In a cache of statistics
    records the key has no entry afterwards, so a later fetch misses. *)
Theorem failed_fetch_writes_nothing
    (env : Env) (username : string) (w w' : World) (err : Error) :
  fetchUserAnimeStats env username w = (Throw err, w') ->
  service_cache w' = (Cache.get (now w) ("stats_" +:+ username) (service_cache w)).2 /\
  (forall k e, cache (service_cache w') !! k = Some e ->
               cache (service_cache w) !! k = Some e) /\
  (forall k, k <> "stats_" +:+ username ->
             cache (service_cache w') !! k = cache (service_cache w) !! k) /\
  (stats_only (service_cache w) ->
   cache (service_cache w') !! ("stats_" +:+ username) = None).
Proof.
  intros Hf. destruct (fetch_throw_cache _ _ _ _ _ Hf) as [-> Hfalsy].
  split; [reflexivity |].
  destruct (get_shrinks (now w) ("stats_" +:+ username) (service_cache w)) as [H1 H2].
  split; [exact H1 |]. split; [exact H2 |].
  intros Hstats. now apply get_falsy.
Qed.

Lemma failed_fetch_writes_nothing_witness :
  exists err w',
    fetchUserAnimeStats sample_env "bob" (arrival []) = (Throw err, w') /\
    service_cache w' = service_cache (arrival []).
Proof.
  destruct (fetchUserAnimeStats sample_env "bob" (arrival [])) as [r w'] eqn:Hf.
  assert (Hr : exists err, r = Throw err).
  { apply (f_equal fst) in Hf. vm_compute in Hf. subst r. eauto. }
  destruct Hr as [err ->]. exists err, w'. split; [reflexivity |].
  destruct (failed_fetch_writes_nothing _ _ _ _ _ Hf) as (-> & _).
  unfold Cache.get. simpl. now rewrite lookup_empty.
Defined.

(** ** The cover lookup *)



(** ** Runs of computations: what is appended to the trace *)

Lemma host_calls_app (t1 t2 : list Event) :
  host_calls (t1 ++ t2) = host_calls t1 ++ host_calls t2.
Proof. apply omap_app. Qed.

Lemma visible_replies_app (t1 t2 : list Event) :
  visible_replies (t1 ++ t2) = (visible_replies t1 + visible_replies t2)%nat.
Proof.
  unfold visible_replies. now rewrite host_calls_app, List.filter_app, length_app.
Qed.

Lemma defer_calls_app (t1 t2 : list Event) :
  defer_calls (t1 ++ t2) = (defer_calls t1 + defer_calls t2)%nat.
Proof.
  unfold defer_calls. now rewrite host_calls_app, List.filter_app, length_app.
Qed.

#[local] Instance extends_preorder (ok : Event -> Prop) : PreOrder (extends ok).
Proof.
  split.
  - intros w. exists []. split; [now rewrite app_nil_r | constructor].
  - intros w1 w2 w3 (t1 & H1 & Hok1) (t2 & H2 & Hok2). exists (t1 ++ t2).
    split; [now rewrite H2, H1, app_assoc | now apply Forall_app].
Qed.

#[local] Instance extends_idle_preorder : PreOrder extends_idle.
Proof.
  split.
  - intros w. split; reflexivity.
  - intros w1 w2 w3 [Hi1 H1] [Hi2 H2]. split; [congruence | etransitivity; eassumption].
Qed.

Section Steps.

Context (R : World -> World -> Prop) `{!PreOrder R}.

Lemma steps_ret {A} (a : A) : steps R (ret a).
Proof. intros w. reflexivity. Qed.

Lemma steps_throw {A} (e : Error) : steps R (@throw A e).
Proof. intros w. reflexivity. Qed.

Lemma steps_lift {A} (r : Result A) : steps R (lift r).
Proof. intros w. reflexivity. Qed.

Lemma steps_read_flags : steps R read_flags.
Proof. intros w. reflexivity. Qed.

Lemma steps_bind {A B} (m : M A) (k : A -> M B) :
  steps R m -> (forall a, steps R (k a)) -> steps R (bind m k).
Proof.
  intros Hm Hk w. unfold bind. specialize (Hm w).
  destruct (m w) as [[a | e] w1]; simpl in *; [| exact Hm].
  etransitivity; [exact Hm | apply Hk].
Qed.

Lemma steps_try_catch {A} (m : M A) (h : Error -> M A) :
  steps R m -> (forall e, steps R (h e)) -> steps R (try_catch m h).
Proof.
  intros Hm Hh w. unfold try_catch. specialize (Hm w).
  destruct (m w) as [[a | e] w1]; simpl in *; [exact Hm |].
  etransitivity; [exact Hm | apply Hh].
Qed.

Lemma steps_build (accepts : Embed -> bool) (e : Embed) : steps R (build accepts e).
Proof. unfold build. destruct (accepts e); [apply steps_ret | apply steps_throw]. Qed.

End Steps.

Lemma extends_event (ok : Event -> Prop) (w w' : World) (ev : Event) :
  trace w' = trace w ++ [ev] -> ok ev -> extends ok w w'.
Proof. intros Ht Hok. exists [ev]. split; [exact Ht | repeat constructor; exact Hok]. Qed.

Lemma extends_same (ok : Event -> Prop) (w w' : World) :
  trace w' = trace w -> extends ok w w'.
Proof. intros Ht. exists []. split; [now rewrite app_nil_r | constructor]. Qed.

Section Primitives.

Context (ok : Event -> Prop).

Lemma extends_emit (ev : Event) : ok ev -> steps (extends ok) (emit ev).
Proof. intros Hok w. now apply extends_event with ev. Qed.

Lemma extends_cache_get (key : string) : steps (extends ok) (cache_get key).
Proof.
  intros w. unfold cache_get. destruct (Cache.get _ _ _). now apply extends_same.
Qed.

Lemma extends_cache_set (key : string) (v : Value) : steps (extends ok) (cache_set key v).
Proof. intros w. now apply extends_same. Qed.

Lemma extends_post (env : Env) {A} (ev : Event) (answer : Z -> Api.Reply A) :
  ok ev -> steps (extends ok) (post env ev answer).
Proof.
  intros Hok w. unfold post. destruct (answer (now w)); now apply extends_event with ev.
Qed.

Lemma extends_host_call (o : HostOp) (legal : Interaction -> bool)
    (refusal : Error) (after : Interaction -> Interaction) :
  (forall d r a, ok (Host {| op := o; deferred_before := d; replied_before := r;
                             accepted := a |})) ->
  steps (extends ok) (host_call o legal refusal after).
Proof.
  intros Hok w. unfold host_call.
  destruct (legal (interaction w)); [destruct (script (interaction w)) as [| [|] rest] |];
    (eapply extends_event; [reflexivity | apply Hok]).
Qed.

End Primitives.

Lemma idle_emit (ev : Event) : host_event ev = None -> steps extends_idle (emit ev).
Proof. intros Hev w. split; [reflexivity | now apply extends_emit]. Qed.

Lemma idle_cache_get (key : string) : steps extends_idle (cache_get key).
Proof.
  intros w. split; [| apply extends_cache_get].
  unfold cache_get. now destruct (Cache.get _ _ _).
Qed.

Lemma idle_cache_set (key : string) (v : Value) : steps extends_idle (cache_set key v).
Proof. intros w. split; [reflexivity | apply extends_cache_set]. Qed.

Lemma idle_post (env : Env) {A} (ev : Event) (answer : Z -> Api.Reply A) :
  host_event ev = None -> steps extends_idle (post env ev answer).
Proof.
  intros Hev w. split; [| now apply extends_post].
  unfold post. now destruct (answer (now w)).
Qed.

(** Decomposition of a computation into the rules above; what is left are
    the conditions on the events emitted. *)
Ltac run_steps :=
  repeat first
    [ apply steps_bind; [typeclasses eauto | | intros ?]
    | apply steps_try_catch; [typeclasses eauto | | intros ?]
    | apply steps_ret; typeclasses eauto
    | apply steps_throw; typeclasses eauto
    | apply steps_lift; typeclasses eauto
    | apply steps_read_flags; typeclasses eauto
    | apply steps_build; typeclasses eauto
    | apply extends_cache_get | apply extends_cache_set
    | apply extends_emit | apply extends_post | apply extends_host_call
    | apply idle_cache_get | apply idle_cache_set
    | apply idle_emit | apply idle_post
    | match goal with
      | |- steps _ (match ?x with _ => _ end) => destruct x
      end ].

(** ** Replies of a run *)

Lemma all_accepted_app (t1 t2 : list Event) :
  all_accepted (t1 ++ t2) <-> all_accepted t1 /\ all_accepted t2.
Proof. unfold all_accepted. rewrite host_calls_app. apply Forall_app. Qed.

Lemma unseen_no_replies (t : list Event) :
  Forall unseen t -> visible_replies t = 0%nat.
Proof.
  unfold visible_replies, host_calls. induction 1 as [| ev t Hev _ IH]; [reflexivity |].
  simpl. destruct (host_event ev) as [c |] eqn:Hc; [| exact IH].
  simpl. now rewrite (Hev c Hc).
Qed.

Lemma idle_no_calls (t : list Event) :
  Forall (fun ev => host_event ev = None) t -> host_calls t = [].
Proof.
  unfold host_calls. induction 1 as [| ev t Hev _ IH]; [reflexivity |].
  simpl. now rewrite Hev.
Qed.

Lemma reply_once_unseen {A} (m : M A) : steps (extends unseen) m -> reply_once m.
Proof.
  intros Hm w. destruct (Hm w) as (t & Ht & Hok). exists t. split; [exact Ht |].
  rewrite (unseen_no_replies t Hok). destruct (m w).1; lia.
Qed.

Lemma reply_once_bind {A B} (m : M A) (k : A -> M B) :
  steps (extends unseen) m -> (forall a, reply_once (k a)) -> reply_once (bind m k).
Proof.
  intros Hm Hk w. unfold bind. destruct (Hm w) as (t1 & Ht1 & Hok).
  pose proof (unseen_no_replies t1 Hok) as H0.
  destruct (m w) as [[a | e] w1]; simpl in *.
  - destruct (Hk a w1) as (t2 & Ht2 & Hres). exists (t1 ++ t2).
    split; [now rewrite Ht2, Ht1, app_assoc |].
    rewrite visible_replies_app, H0. exact Hres.
  - exists t1. auto.
Qed.

Lemma reply_once_try_catch {A} (m : M A) (h : Error -> M A) :
  reply_once m -> (forall e, reply_once (h e)) -> reply_once (try_catch m h).
Proof.
  intros Hm Hh w. unfold try_catch. destruct (Hm w) as (t1 & Ht1 & Hres1).
  destruct (m w) as [[a | e] w1]; simpl in *.
  - exists t1. auto.
  - destruct (Hh e w1) as (t2 & Ht2 & Hres2). exists (t1 ++ t2).
    split; [now rewrite Ht2, Ht1, app_assoc |].
    rewrite visible_replies_app, Hres1. exact Hres2.
Qed.

Lemma reply_once_host_call (o : HostOp) (legal : Interaction -> bool)
    (refusal : Error) (after : Interaction -> Interaction) :
  reply_once (host_call o legal refusal after).
Proof.
  intros w. unfold host_call.
  destruct (legal (interaction w)); [destruct (script (interaction w)) as [| [|] rest] |];
    (eexists [_]; split; [reflexivity |]); simpl;
    unfold visible_replies, visible; simpl; try reflexivity;
    destruct (negb _); simpl; lia.
Qed.

Lemma replying_bind {A B} (m : M A) (k : A -> M B) :
  steps extends_idle m -> (forall a, replying (k a)) -> replying (bind m k).
Proof.
  intros Hm Hk w. unfold bind. destruct (Hm w) as (Hi & t1 & Ht1 & Hok).
  pose proof (idle_no_calls t1 Hok) as H0.
  destruct (m w) as [[a | e] w1]; simpl in *.
  - destruct (Hk a w1) as (t2 & Ht2 & Hres). exists (t1 ++ t2).
    split; [now rewrite Ht2, Ht1, app_assoc |].
    intros Hw Hacc. apply all_accepted_app in Hacc as [_ Hacc].
    rewrite host_calls_app, H0. simpl. apply Hres; [| exact Hacc].
    unfold pending. now rewrite Hi.
  - exists t1. split; [exact Ht1 |]. intros Hw _. split; [exact H0 |].
    unfold pending. now rewrite Hi.
Qed.

Lemma finishing_replying {A} (m : M A) : finishing m -> replying m.
Proof.
  intros Hm w. destruct (Hm w) as (t & Ht & Hres). exists t.
  split; [exact Ht |]. intros Hw Hacc. destruct (Hres Hw Hacc) as (Hp & a & ->).
  exact Hp.
Qed.

Lemma finishing_try_catch {A} (m : M A) (h : Error -> M A) :
  replying m -> (forall e, finishing (h e)) -> finishing (try_catch m h).
Proof.
  intros Hm Hh w. unfold try_catch. destruct (Hm w) as (t1 & Ht1 & Hres1).
  destruct (m w) as [[a | e] w1]; simpl in *.
  - exists t1. split; [exact Ht1 |]. intros Hw Hacc. split; [now apply Hres1 | eauto].
  - destruct (Hh e w1) as (t2 & Ht2 & Hres2). exists (t1 ++ t2).
    split; [now rewrite Ht2, Ht1, app_assoc |].
    intros Hw Hacc. apply all_accepted_app in Hacc as [Hacc1 Hacc2].
    destruct (Hres1 Hw Hacc1) as [H0 Hw1].
    rewrite host_calls_app, H0. simpl. now apply Hres2.
Qed.

Lemma finishing_emit (ev : Event) (k : M unit) :
  host_event ev = None -> finishing k -> finishing (bind (emit ev) (fun _ => k)).
Proof.
  intros Hev Hk w. unfold bind, emit; simpl.
  destruct (Hk {| service_cache := service_cache w; now := now w;
                  interaction := interaction w; trace := trace w ++ [ev] |})
    as (t & Ht & Hres).
  exists ([ev] ++ t). split; [now rewrite Ht, app_assoc |].
  intros Hw Hacc. apply all_accepted_app in Hacc as [_ Hacc].
  rewrite host_calls_app. unfold host_calls at 1. simpl. rewrite Hev. simpl.
  now apply Hres.
Qed.

Lemma finishing_editReply (p : Payload) : finishing (editReply p).
Proof.
  intros w. unfold editReply, host_call.
  destruct (deferred (interaction w) || replied (interaction w)) eqn:Hlegal;
    [destruct (script (interaction w)) as [| [|] rest] |];
    (eexists [_]; split; [reflexivity |]); intros [Hd Hr] Hacc; simpl;
    try (inversion Hacc; discriminate);
    rewrite Hd, Hr; (split; [exists p; reflexivity | exists tt; reflexivity]).
Qed.

Lemma finishing_guarded {A} (m : M A) (h : Error -> M A) :
  finishing m -> (forall e, steps (extends (fun _ => True)) (h e)) ->
  finishing (try_catch m h).
Proof.
  intros Hm Hh w. unfold try_catch. destruct (Hm w) as (t1 & Ht1 & Hres1).
  destruct (m w) as [[a | e] w1]; simpl in *.
  - exists t1. auto.
  - destruct (Hh e w1) as (t2 & Ht2 & _). exists (t1 ++ t2).
    split; [now rewrite Ht2, Ht1, app_assoc |].
    intros Hw Hacc. apply all_accepted_app in Hacc as [Hacc1 _].
    destruct (Hres1 Hw Hacc1) as (_ & a & [=]).
Qed.

(** The last resort answers a pending command with an [editReply]. *)
Lemma finishing_last_resort (text : string) (m : Message) :
  finishing (last_resort text m).
Proof.
  unfold last_resort. apply finishing_emit; [reflexivity |].
  apply finishing_guarded; [| intros e; now apply extends_emit].
  intros w. unfold bind, read_flags.
  destruct (replied (interaction w)) eqn:Hr, (deferred (interaction w)) eqn:Hd; simpl.
  - apply finishing_editReply.
  - exists []. split; [now rewrite app_nil_r |]. intros [Hd' _]. congruence.
  - apply finishing_editReply.
  - destruct (reply_once_host_call (Reply (Content m))
                (fun i => negb (deferred i || replied i))
                InteractionAlreadyReplied mark_replied w) as (t & Ht & _).
    exists t. split; [exact Ht |]. intros [Hd' _]. congruence.
Qed.

(** ** The parts of the handlers *)

Lemma fetch_idle (env : Env) (username : string) :
  steps extends_idle (fetchUserAnimeStats env username).
Proof. unfold fetchUserAnimeStats, fetch_and_aggregate. run_steps; reflexivity. Qed.

Lemma embed_idle (env : Env) (username : string) (stats : Value) :
  steps extends_idle (createAnimeStatsEmbed env username stats).
Proof. unfold createAnimeStatsEmbed. run_steps. Qed.

Lemma cover_idle (env : Env) (animeId : option Z) :
  steps extends_idle (fetchAnimeCoverById env animeId).
Proof. unfold fetchAnimeCoverById. run_steps; reflexivity. Qed.

Lemma lawful_calls (t : list Event) :
  Forall lawful t ->
  defer_calls t = 0%nat /\
  Forall (fun c => reply_while_deferred c = false) (host_calls t).
Proof.
  unfold defer_calls, host_calls. induction 1 as [| ev t Hev _ [IH1 IH2]]; simpl.
  - split; [reflexivity | constructor].
  - destruct (host_event ev) as [c |] eqn:Hc; simpl; [| auto].
    destruct (Hev c Hc) as [-> Hc2]. split; [exact IH1 | now constructor].
Qed.

(** The last resort calls [reply] only while neither flag is set. *)
Lemma last_resort_lawful (text : string) (m : Message) :
  steps (extends lawful) (last_resort text m).
Proof.
  unfold last_resort.
  apply steps_bind; [typeclasses eauto | apply extends_emit; intros c [=] |].
  intros _. apply steps_try_catch; [typeclasses eauto | |].
  - intros w. unfold bind, read_flags.
    destruct (replied (interaction w)) eqn:Hr, (deferred (interaction w)) eqn:Hd; simpl.
    1,3: apply extends_host_call; intros d r a c [= <-]; split; reflexivity.
    + reflexivity.
    + unfold reply, host_call. rewrite Hr, Hd. simpl.
      destruct (script (interaction w)) as [| [|] rest];
        (eapply extends_event; [reflexivity |]); intros c [= <-]; split; reflexivity.
  - intros e. apply extends_emit. intros c [=].
Qed.

Lemma last_resort_reply_once (text : string) (m : Message) :
  reply_once (last_resort text m).
Proof.
  unfold last_resort.
  apply reply_once_bind; [apply extends_emit; intros c [=] |]. intros _.
  apply reply_once_try_catch.
  - apply reply_once_bind; [apply steps_read_flags; typeclasses eauto |].
    intros [[|] [|]]; simpl;
      try apply reply_once_host_call.
    apply reply_once_unseen, steps_ret. typeclasses eauto.
  - intros e. apply reply_once_unseen, extends_emit. intros c [=].
Qed.

(** What [deferReply] does when a command arrives. *)
Lemma deferReply_fresh (w : World) :
  fresh w ->
  exists (ok : bool) (w1 : World),
    (deferReply w).2 = w1 /\
    (deferReply w).1 = (if ok then Ok tt else Throw HostError) /\
    trace w1 =
    [Host {| op := DeferReply; deferred_before := false; replied_before := false;
             accepted := ok |}] /\
    deferred (interaction w1) = ok /\ replied (interaction w1) = false.
Proof.
  intros (Hd & Hr & Ht). unfold deferReply, host_call. cbv zeta.
  rewrite Hd, Hr, Ht. simpl.
  destruct (script (interaction w)) as [| [|] rest]; simpl;
    [exists true | exists true | exists false];
    (eexists; split; [reflexivity |]); simpl; rewrite ?Hd, ?Hr, ?Ht; auto.
Qed.

(** A handler of the shape the two commands have: acknowledge, run the
    body, and on any exception fall back on the last resort. *)
Lemma command_discipline (body : M unit) (text : string) (m : Message) (w : World) :
  steps (extends lawful) body -> reply_once body -> replying body ->
  fresh w ->
  reply_discipline
    (trace (try_catch (bind deferReply (fun _ => body))
              (fun globalError => last_resort text m) w).2).
Proof.
  intros Hlaw Honce Hrep Hfresh.
  destruct (deferReply_fresh w Hfresh) as (ok & w1 & Hw1 & Hres & Ht1 & Hd1 & Hr1).
  unfold try_catch, bind.
  destruct (deferReply w) as [r0 w0]. simpl in Hw1, Hres. subst w0 r0.
  assert (Hvis1 : visible_replies (trace w1) = 0%nat) by (rewrite Ht1; reflexivity).
  assert (Hdef1 : defer_calls (trace w1) = 1%nat) by (rewrite Ht1; reflexivity).
  assert (Hlaw1 : Forall (fun c => reply_while_deferred c = false) (host_calls (trace w1)))
    by (rewrite Ht1; repeat constructor).
  destruct ok.
  - (* the acknowledgement was accepted *)
    assert (Hpen : pending w1) by (split; assumption).
    destruct (Hlaw w1) as (tb & Htb & Hlb).
    destruct (Honce w1) as (tb' & Htb' & Hvb).
    destruct (Hrep w1) as (tb'' & Htb'' & Hcb).
    assert (tb' = tb) by (rewrite Htb in Htb'; now apply app_inv_head in Htb').
    assert (tb'' = tb) by (rewrite Htb in Htb''; now apply app_inv_head in Htb'').
    subst tb' tb''. destruct (lawful_calls tb Hlb) as [Hdb Hrb].
    destruct (body w1) as [[[] | e] w2]; cbn [fst snd] in *.
    + rewrite Htb. unfold reply_discipline.
      rewrite defer_calls_app, visible_replies_app, host_calls_app, Hdef1, Hdb, Hvis1.
      split; [reflexivity |]. split; [now apply Forall_app |]. split; [exact Hvb |].
      intros Hacc. apply all_accepted_app in Hacc as [_ Hacc].
      destruct (Hcb Hpen Hacc) as [p Hp]. rewrite Ht1, Hp. simpl.
      split; [| exists p; reflexivity].
      unfold visible_replies in *. rewrite Hp. reflexivity.
    + destruct (last_resort_lawful text m w2) as (tl & Htl & Hll).
      destruct (last_resort_reply_once text m w2) as (tl' & Htl' & Hvl).
      destruct (finishing_last_resort text m w2) as (tl'' & Htl'' & Hcl).
      assert (tl' = tl) by (rewrite Htl in Htl'; now apply app_inv_head in Htl').
      assert (tl'' = tl) by (rewrite Htl in Htl''; now apply app_inv_head in Htl'').
      subst tl' tl''. destruct (lawful_calls tl Hll) as [Hdl Hrl].
      rewrite Htl, Htb. unfold reply_discipline.
      rewrite !defer_calls_app, !visible_replies_app, !host_calls_app,
        Hdef1, Hdb, Hdl, Hvis1, Hvb.
      split; [reflexivity |]. split; [rewrite !Forall_app; auto |].
      split; [destruct (last_resort text m w2).1; lia |].
      intros Hacc. apply all_accepted_app in Hacc as [Hacc Hal].
      apply all_accepted_app in Hacc as [_ Hab].
      destruct (Hcb Hpen Hab) as [Hnone Hpen2].
      destruct (Hcl Hpen2 Hal) as [[p Hp] _].
      unfold all_accepted in *. rewrite Ht1, Hnone, Hp. simpl.
      split; [| exists p; reflexivity].
      unfold visible_replies in *. rewrite Hp in *. simpl in *.
      destruct (last_resort text m w2).1; reflexivity.
  - (* the acknowledgement was rejected *)
    cbn [fst snd].
    destruct (last_resort_lawful text m w1) as (tl & Htl & Hll).
    destruct (last_resort_reply_once text m w1) as (tl' & Htl' & Hvl).
    assert (tl' = tl) by (rewrite Htl in Htl'; now apply app_inv_head in Htl').
    subst tl'. destruct (lawful_calls tl Hll) as [Hdl Hrl].
    rewrite Htl. unfold reply_discipline.
    rewrite defer_calls_app, visible_replies_app, host_calls_app, Hdef1, Hdl, Hvis1.
    split; [reflexivity |]. split; [now apply Forall_app |].
    split; [destruct (last_resort text m w1).1; simpl; lia |].
    intros Hacc. apply all_accepted_app in Hacc as [Hacc _].
    unfold all_accepted in Hacc. rewrite Ht1 in Hacc. inversion Hacc; discriminate.
Qed.

(** A computation that leaves the interaction alone emits only events that
    any condition on the calls accepts. *)
Lemma idle_extends (ok : Event -> Prop) {A} (m : M A) :
  (forall ev, host_event ev = None -> ok ev) ->
  steps extends_idle m -> steps (extends ok) m.
Proof.
  intros Hok Hm w. destruct (Hm w) as (_ & t & Ht & Hnone). exists t.
  split; [exact Ht |]. eapply Forall_impl; [exact Hnone | exact Hok].
Qed.

Lemma lawful_idle (ev : Event) : host_event ev = None -> lawful ev.
Proof. intros Hev c Hc. congruence. Qed.

Lemma unseen_idle (ev : Event) : host_event ev = None -> unseen ev.
Proof. intros Hev c Hc. congruence. Qed.

Lemma lawful_edit (p : Payload) (d r a : bool) :
  lawful (Host {| op := EditReply p; deferred_before := d; replied_before := r;
                  accepted := a |}).
Proof. intros c [= <-]. split; reflexivity. Qed.

Lemma stats_handler_shape (env : Env) (username : option string) :
  handleAnimeStatsCommand env username =
  try_catch (bind deferReply (fun _ => stats_body env username))
    (fun globalError =>
       last_resort "Critical error in anime stats command" MsgUnexpected).
Proof. reflexivity. Qed.

Lemma cover_handler_shape (env : Env) (animeIdStr : option string) :
  handleAnimeCoverCommand env animeIdStr =
  try_catch (bind deferReply (fun _ => cover_body env animeIdStr))
    (fun globalError =>
       last_resort "Critical error in anime cover command" MsgCoverFailed).
Proof. reflexivity. Qed.

Lemma stats_body_lawful (env : Env) (username : option string) :
  steps (extends lawful) (stats_body env username).
Proof.
  unfold stats_body, editReply. run_steps;
    try apply lawful_edit; try (apply lawful_idle; reflexivity);
    apply idle_extends;
    solve [apply lawful_idle | apply fetch_idle | apply embed_idle].
Qed.

Lemma stats_body_reply_once (env : Env) (username : option string) :
  reply_once (stats_body env username).
Proof.
  unfold stats_body, editReply.
  destruct username as [name |]; [| apply reply_once_host_call].
  destruct (String.eqb name ""); [apply reply_once_host_call |].
  apply reply_once_try_catch.
  - apply reply_once_bind; [apply idle_extends; [apply unseen_idle | apply fetch_idle] |].
    intros stats.
    apply reply_once_bind; [apply idle_extends; [apply unseen_idle | apply embed_idle] |].
    intros e. apply reply_once_host_call.
  - intros err. apply reply_once_bind; [apply extends_emit, unseen_idle; reflexivity |].
    intros _. apply reply_once_host_call.
Qed.

Lemma stats_body_replying (env : Env) (username : option string) :
  replying (stats_body env username).
Proof.
  unfold stats_body. apply finishing_replying.
  destruct username as [name |]; [| apply finishing_editReply].
  destruct (String.eqb name ""); [apply finishing_editReply |].
  apply finishing_try_catch.
  - apply replying_bind; [apply fetch_idle |]. intros stats.
    apply replying_bind; [apply embed_idle |]. intros e.
    apply finishing_replying, finishing_editReply.
  - intros err. apply finishing_emit; [reflexivity | apply finishing_editReply].
Qed.

Lemma cover_body_lawful (env : Env) (animeIdStr : option string) :
  steps (extends lawful) (cover_body env animeIdStr).
Proof.
  unfold cover_body, editReply. run_steps;
    try apply lawful_edit; try (apply lawful_idle; reflexivity);
    apply idle_extends; solve [apply lawful_idle | apply cover_idle].
Qed.

Lemma cover_body_reply_once (env : Env) (animeIdStr : option string) :
  reply_once (cover_body env animeIdStr).
Proof.
  unfold cover_body, editReply.
  destruct (invalid_anime_id animeIdStr); [apply reply_once_host_call |].
  apply reply_once_bind; [apply idle_extends; [apply unseen_idle | apply cover_idle] |].
  intros [url |].
  - apply reply_once_bind; [apply extends_emit, unseen_idle; reflexivity |]. intros _.
    apply reply_once_bind; [apply steps_build; typeclasses eauto |]. intros e.
    apply reply_once_host_call.
  - apply reply_once_bind; [apply extends_emit, unseen_idle; reflexivity |]. intros _.
    apply reply_once_host_call.
Qed.

Lemma cover_body_replying (env : Env) (animeIdStr : option string) :
  replying (cover_body env animeIdStr).
Proof.
  unfold cover_body.
  destruct (invalid_anime_id animeIdStr);
    [apply finishing_replying, finishing_editReply |].
  apply replying_bind; [apply cover_idle |]. intros [url |].
  - apply replying_bind; [apply idle_emit; reflexivity |]. intros _.
    apply replying_bind; [apply steps_build; typeclasses eauto |]. intros e.
    apply finishing_replying, finishing_editReply.
  - apply finishing_replying, finishing_emit; [reflexivity | apply finishing_editReply].
Qed.

(** ** The reply to a failure *)

Lemma answers_editReply (p : Payload) (w : World) :
  pending w -> answers_with p (editReply p) w.
Proof.
  intros [Hd Hr]. unfold answers_with, editReply, host_call. cbv zeta.
  rewrite Hd, Hr. simpl.
  destruct (script (interaction w)) as [| [|] rest];
    (eexists [_]; split; [reflexivity |]); intros Hacc; simpl;
    try (inversion Hacc; discriminate).
  all: split; [reflexivity | exists tt; reflexivity].
Qed.

Lemma answers_after_emit {A} (p : Payload) (ev : Event) (k : M A) (w : World) :
  host_event ev = None ->
  (forall w1, interaction w1 = interaction w -> answers_with p k w1) ->
  answers_with p (bind (emit ev) (fun _ => k)) w.
Proof.
  intros Hev Hk. unfold bind, emit; simpl.
  destruct (Hk {| service_cache := service_cache w; now := now w;
                  interaction := interaction w; trace := trace w ++ [ev] |} eq_refl)
    as (t & Ht & Hres).
  exists ([ev] ++ t). split; [now rewrite Ht, app_assoc |].
  intros Hacc. apply all_accepted_app in Hacc as [_ Hacc].
  rewrite host_calls_app. unfold host_calls at 1. simpl. rewrite Hev. simpl.
  now apply Hres.
Qed.

(** On a pending command the last resort edits the reply. *)
Lemma answers_last_resort (text : string) (m : Message) (w : World) :
  pending w -> answers_with (Content m) (last_resort text m) w.
Proof.
  intros [Hd Hr]. unfold last_resort. apply answers_after_emit; [reflexivity |].
  intros w1 Hi. unfold answers_with, try_catch, bind, read_flags. cbv beta iota zeta.
  rewrite Hi, Hd, Hr. cbn [negb andb]. cbv beta iota.
  destruct (answers_editReply (Content m) w1) as (t & Ht & Hres);
    [split; congruence |].
  destruct (editReply (Content m) w1) as [[[] | e] w2]; simpl in *.
  - exists t. split; [exact Ht |]. intros Hacc. destruct (Hres Hacc) as [Hc _]. eauto.
  - exists (t ++ [Logged "Failed to send final error message"]).
    split; [now rewrite Ht, app_assoc |].
    intros Hacc. apply all_accepted_app in Hacc as [Hacc _].
    destruct (Hres Hacc) as (_ & a & [=]).
Qed.

(** The handlers, step by step. *)
Lemma command_unfold (body : M unit) (text : string) (m : Message) (w : World) :
  try_catch (bind deferReply (fun _ => body))
    (fun globalError => last_resort text m) w =
  match deferReply w with
  | (Ok _, w1) =>
      match body w1 with
      | (Ok a, w2) => (Ok a, w2)
      | (Throw e, w2) => last_resort text m w2
      end
  | (Throw e, w1) => last_resort text m w1
  end.
Proof.
  unfold try_catch, bind. destruct (deferReply w) as [[[] | e] w1]; reflexivity.
Qed.

(** An acknowledged command whose body answers with [p] shows the calls
    [deferReply], [editReply p]. *)
Lemma command_reply (body : M unit) (text : string) (m : Message)
    (w : World) (p : Payload) :
  fresh w ->
  (pending (deferReply w).2 -> answers_with p body (deferReply w).2) ->
  all_accepted
    (trace (try_catch (bind deferReply (fun _ => body))
              (fun globalError => last_resort text m) w).2) ->
  host_calls
    (trace (try_catch (bind deferReply (fun _ => body))
              (fun globalError => last_resort text m) w).2)
  = [defer_ok; edit_ok p].
Proof.
  intros Hfresh Hbody. rewrite command_unfold.
  destruct (deferReply_fresh w Hfresh) as (ok & w1 & Hw1 & Hres & Ht1 & Hd1 & Hr1).
  destruct (deferReply w) as [r0 w0]. simpl in Hw1, Hres, Hbody. subst w0 r0.
  destruct ok.
  - destruct (Hbody (conj Hd1 Hr1)) as (tb & Htb & Hansw).
    destruct (body w1) as [[[] | e] w2]; cbn [fst snd] in *.
    + rewrite Htb, Ht1. intros Hacc. apply all_accepted_app in Hacc as [_ Hacc].
      destruct (Hansw Hacc) as [Hc _]. rewrite host_calls_app, Hc. reflexivity.
    + destruct (last_resort_lawful text m w2) as (tl & Htl & _). rewrite Htl, Htb.
      intros Hacc. apply all_accepted_app in Hacc as [Hacc _].
      apply all_accepted_app in Hacc as [_ Hacc].
      destruct (Hansw Hacc) as (_ & a & [=]).
  - destruct (last_resort_lawful text m w1) as (tl & Htl & _). rewrite Htl, Ht1.
    intros Hacc. apply all_accepted_app in Hacc as [Hacc _].
    inversion Hacc; discriminate.
Qed.

(** An acknowledged command whose body throws without a call is answered
    by the last resort. *)
Lemma command_fallback (body : M unit) (text : string) (m : Message)
    (w : World) (err : Error) :
  fresh w ->
  (body (deferReply w).2).1 = Throw err ->
  extends_idle (deferReply w).2 (body (deferReply w).2).2 ->
  all_accepted
    (trace (try_catch (bind deferReply (fun _ => body))
              (fun globalError => last_resort text m) w).2) ->
  host_calls
    (trace (try_catch (bind deferReply (fun _ => body))
              (fun globalError => last_resort text m) w).2)
  = [defer_ok; edit_ok (Content m)].
Proof.
  intros Hfresh Hthrow Hidle. rewrite command_unfold.
  destruct (deferReply_fresh w Hfresh) as (ok & w1 & Hw1 & Hres & Ht1 & Hd1 & Hr1).
  destruct (deferReply w) as [r0 w0]. simpl in Hw1, Hres, Hthrow, Hidle. subst w0 r0.
  destruct Hidle as (Hi & tb & Htb & Hnone). apply idle_no_calls in Hnone.
  destruct ok.
  - destruct (body w1) as [[[] | e] w2]; cbn [fst snd] in *; [discriminate |].
    destruct (answers_last_resort text m w2) as (tl & Htl & Hansw).
    { unfold pending. rewrite Hi. auto. }
    rewrite Htl, Htb, Ht1. intros Hacc. apply all_accepted_app in Hacc as [_ Hacc].
    destruct (Hansw Hacc) as [Hc _].
    rewrite !host_calls_app, Hc, Hnone. reflexivity.
  - destruct (last_resort_lawful text m w1) as (tl & Htl & _). rewrite Htl, Ht1.
    intros Hacc. apply all_accepted_app in Hacc as [Hacc _].
    inversion Hacc; discriminate.
Qed.

Lemma bind_throws {A B} (m : M A) (k : A -> M B) (w : World) (err : Error) :
  (m w).1 = Throw err ->
  (bind m k w).1 = Throw err /\ (bind m k w).2 = (m w).2.
Proof.
  unfold bind. destruct (m w) as [[a | e] w1]; simpl; [discriminate |].
  intros [= ->]. auto.
Qed.

(** A [try] block that throws without a call is answered by its handler. *)
Lemma answers_catch {A} (p : Payload) (m : M A) (h : Error -> M A)
    (w : World) (err : Error) :
  (m w).1 = Throw err ->
  extends_idle w (m w).2 ->
  (forall w2, interaction w2 = interaction w -> answers_with p (h err) w2) ->
  answers_with p (try_catch m h) w.
Proof.
  intros Hthrow (Hi & t1 & Ht1 & Hnone) Hh. apply idle_no_calls in Hnone.
  unfold answers_with, try_catch.
  destruct (m w) as [[a | e] w1]; simpl in *; [discriminate |].
  injection Hthrow as ->.
  destruct (Hh w1 Hi) as (t2 & Ht2 & Hres). exists (t1 ++ t2).
  split; [now rewrite Ht2, Ht1, app_assoc |].
  intros Hacc. apply all_accepted_app in Hacc as [_ Hacc].
  rewrite host_calls_app, Hnone. now apply Hres.
Qed.

(** ** The handlers *)

(** C1, as the code has it: a command is acknowledged exactly once; [reply]
    is never called once [deferred] is set; the user sees at most one
    reply, and exactly one, sent by [editReply] after the acknowledgement,
    whenever the platform accepts every call made on the interaction. In
    particular, when the fetch fails after an accepted acknowledgement and
    the calls are accepted, [editReply] is called exactly once, with the
    error message of the command. *)
Theorem single_reply (env : Env) (w : World) :
  fresh w ->
  (forall username,
     reply_discipline (trace (handleAnimeStatsCommand env username w).2)) /\
  (forall animeIdStr,
     reply_discipline (trace (handleAnimeCoverCommand env animeIdStr w).2)) /\
  (forall name err,
     name <> "" ->
     (fetchUserAnimeStats env name (deferReply w).2).1 = Throw err ->
     all_accepted (trace (handleAnimeStatsCommand env (Some name) w).2) ->
     host_calls (trace (handleAnimeStatsCommand env (Some name) w).2)
     = [defer_ok; edit_ok (Content (MsgStatsFailed name))]) /\
  (forall animeIdStr err,
     invalid_anime_id animeIdStr = false ->
     (fetchAnimeCoverById env (parseInt_option animeIdStr) (deferReply w).2).1
     = Throw err ->
     all_accepted (trace (handleAnimeCoverCommand env animeIdStr w).2) ->
     host_calls (trace (handleAnimeCoverCommand env animeIdStr w).2)
     = [defer_ok; edit_ok (Content MsgCoverFailed)]).
Proof.
  intros Hfresh. split; [| split; [| split]].
  - intros username. rewrite stats_handler_shape.
    apply command_discipline;
      [apply stats_body_lawful | apply stats_body_reply_once
      | apply stats_body_replying | exact Hfresh].
  - intros animeIdStr. rewrite cover_handler_shape.
    apply command_discipline;
      [apply cover_body_lawful | apply cover_body_reply_once
      | apply cover_body_replying | exact Hfresh].
  - intros name err Hname Hthrow. rewrite stats_handler_shape.
    apply command_reply; [exact Hfresh |]. intros Hpen.
    unfold stats_body. destruct (String.eqb_spec name ""); [contradiction |].
    destruct (bind_throws (fetchUserAnimeStats env name)
                (fun stats =>
                   let! statsEmbed := createAnimeStatsEmbed env name stats in
                   editReply (Embeds statsEmbed))
                _ _ Hthrow) as [Hb1 Hb2].
    apply answers_catch with err; [exact Hb1 | rewrite Hb2; apply fetch_idle |].
    intros w2 Hi. apply answers_after_emit; [reflexivity |].
    intros w3 Hi3. apply answers_editReply. unfold pending.
    rewrite Hi3, Hi. exact Hpen.
  - intros animeIdStr err Hvalid Hthrow. rewrite cover_handler_shape.
    assert (Hbody : forall w1,
              cover_body env animeIdStr w1 =
              bind (fetchAnimeCoverById env (parseInt_option animeIdStr))
                (fun coverImage =>
                   match coverImage with
                   | None =>
                       do! emit (Metric (ApiRequestMetric "anime_cover" "failure")) in
                       editReply (Content MsgNoCover)
                   | Some url =>
                       do! emit (Metric (ApiRequestMetric "anime_cover" "success")) in
                       let! embed := build (builder_accepts env)
                                       {| embed_title :=
                                            "Anime Cover for ID: "
                                            +:+ number_text (parseInt_option animeIdStr);
                                          embed_fields := [];
                                          embed_image := Some url |} in
                       editReply (Embeds embed)
                   end) w1).
    { intros w1. unfold cover_body. now rewrite Hvalid. }
    apply command_fallback with err; [exact Hfresh | | ]; rewrite Hbody.
    + apply (proj1 (bind_throws _ _ _ _ Hthrow)).
    + rewrite (proj2 (bind_throws _ _ _ _ Hthrow)). apply cover_idle.
Qed.

Lemma single_reply_witness :
  reply_discipline (trace (handleAnimeStatsCommand sample_env (Some "alice") (arrival [])).2) /\
  reply_discipline (trace (handleAnimeCoverCommand sample_env (Some "21") (arrival [false])).2) /\
  host_calls (trace (handleAnimeStatsCommand sample_env (Some "bob") (arrival [])).2)
  = [defer_ok; edit_ok (Content (MsgStatsFailed "bob"))] /\
  host_calls (trace (handleAnimeCoverCommand sample_env (Some "-1") (arrival [])).2)
  = [defer_ok; edit_ok (Content MsgCoverFailed)].
Proof.
  assert (Hfresh : forall answers, fresh (arrival answers)) by (intros; repeat split).
  split; [| split; [| split]].
  - apply (proj1 (single_reply sample_env (arrival []) (Hfresh []))).
  - apply (proj1 (proj2 (single_reply sample_env (arrival [false]) (Hfresh [false])))).
  - apply (proj1 (proj2 (proj2 (single_reply sample_env (arrival []) (Hfresh []))))
             "bob" (UpstreamError "Request failed with status code 404")).
    + discriminate.
    + vm_compute. reflexivity.
    + vm_compute. repeat constructor.
  - apply (proj2 (proj2 (proj2 (single_reply sample_env (arrival []) (Hfresh []))))
             (Some "-1") (UpstreamError "Request failed with status code 500")).
    + vm_compute. reflexivity.
    + vm_compute. reflexivity.
    + vm_compute. repeat constructor.
Defined.

(** C1 as the specification words it fails when the platform rejects the
    calls: with the acknowledgement and the [reply] of the last resort both
    rejected the user sees no reply at all; and with the first [editReply]
    rejected after a failed fetch, [editReply] is called twice. *)
Lemma no_reply_when_calls_are_rejected :
  visible_replies
    (trace (handleAnimeStatsCommand sample_env (Some "alice") (arrival [false; false])).2)
  = 0%nat /\
  host_calls
    (trace (handleAnimeStatsCommand sample_env (Some "bob") (arrival [true; false])).2)
  = [ defer_ok;
      {| op := EditReply (Content (MsgStatsFailed "bob")); deferred_before := true;
         replied_before := false; accepted := false |};
      edit_ok (Content MsgUnexpected) ].
Proof. split; vm_compute; reflexivity. Qed.

(** ** Validation of the anime identifier *)

Lemma valid_anime_id (animeIdStr : option string) :
  invalid_anime_id animeIdStr = false ->
  exists s z, animeIdStr = Some s /\ s <> "" /\ parseInt s = Some z /\
              parseInt_option animeIdStr = Some z.
Proof.
  unfold invalid_anime_id, parseInt_option.
  destruct animeIdStr as [s |]; [| cbn [orb]; discriminate].
  destruct (String.eqb_spec s ""); [cbn [orb]; discriminate |].
  destruct (parseInt s) as [z |] eqn:Hz; [| cbn [orb]; discriminate].
  intros _. exists s, z. repeat split; auto.
Qed.

(** The only request of the cover command is the one for the identifier
    that passed the validation. *)
Lemma cover_command_queries (env : Env) (animeIdStr : option string) :
  steps
    (extends (fun ev =>
                is_query ev = true ->
                invalid_anime_id animeIdStr = false /\
                ev = CoverQuery (parseInt_option animeIdStr)))
    (handleAnimeCoverCommand env animeIdStr).
Proof.
  unfold handleAnimeCoverCommand, last_resort, fetchAnimeCoverById,
    deferReply, editReply, reply.
  destruct (invalid_anime_id animeIdStr) eqn:Hinv;
    run_steps; try discriminate; auto.
Qed.

(** C8, as the code has it: the identifier is rejected when it is missing,
    empty, or [parseInt] makes no number of it, and then the validation
    message is the reply and no request is sent; every request the command
    sends is a cover lookup made for a non-empty identifier of which
    [parseInt] makes a number, and when the integer that its digits write
    is below 2^53 in magnitude, where binary64 holds it exactly, the
    lookup is for that integer, whatever its sign. Identifiers are strings
    of code units below 256. *)
Theorem anime_id_validation (env : Env) (animeIdStr : option string) (w : World) :
  fresh w ->
  (invalid_anime_id animeIdStr = true ->
   queries (trace (handleAnimeCoverCommand env animeIdStr w).2) = [] /\
   (all_accepted (trace (handleAnimeCoverCommand env animeIdStr w).2) ->
    host_calls (trace (handleAnimeCoverCommand env animeIdStr w).2)
    = [defer_ok; edit_ok (Content MsgProvideAnimeId)])) /\
  (forall q,
     In q (queries (trace (handleAnimeCoverCommand env animeIdStr w).2)) ->
     exists s z n,
       animeIdStr = Some s /\ s <> "" /\ parseInt s = Some z /\
       q = CoverQuery n /\
       (in_exact_range (Some z) = true -> n = Some z)).
Proof.
  intros Hfresh.
  destruct (cover_command_queries env animeIdStr w) as (t & Ht & Hok).
  destruct Hfresh as (Hd & Hr & Hnil). rewrite Hnil in Ht. simpl in Ht.
  assert (Hq : forall q,
            In q (queries (trace (handleAnimeCoverCommand env animeIdStr w).2)) ->
            invalid_anime_id animeIdStr = false /\
            q = CoverQuery (parseInt_option animeIdStr)).
  { intros q Hin. rewrite Ht in Hin. apply List.filter_In in Hin as [Hin Hquery].
    rewrite List.Forall_forall in Hok. exact (Hok q Hin Hquery). }
  split.
  - intros Hinv. split.
    + destruct (queries _) as [| q qs]; [reflexivity |].
      destruct (Hq q (or_introl eq_refl)) as [Hvalid _]. congruence.
    + rewrite cover_handler_shape. apply command_reply; [repeat split; assumption |].
      intros Hpen. unfold cover_body. rewrite Hinv. now apply answers_editReply.
  - intros q Hin. destruct (Hq q Hin) as [Hvalid ->].
    destruct (valid_anime_id _ Hvalid) as (s & z & -> & Hs & Hz & ->).
    exists s, z, (Some z). auto 6.
Qed.

Lemma anime_id_validation_witness :
  queries (trace (handleAnimeCoverCommand sample_env (Some "abc") (arrival [])).2) = [] /\
  host_calls (trace (handleAnimeCoverCommand sample_env (Some "abc") (arrival [])).2)
  = [defer_ok; edit_ok (Content MsgProvideAnimeId)] /\
  exists z, parseInt "21" = Some z /\ in_exact_range (Some z) = true /\
            CoverQuery (Some 21) = CoverQuery (Some z).
Proof.
  assert (Hfresh : fresh (arrival [])) by (repeat split).
  split; [| split].
  - apply (proj1 (anime_id_validation sample_env (Some "abc") (arrival []) Hfresh)).
    reflexivity.
  - apply (proj1 (anime_id_validation sample_env (Some "abc") (arrival []) Hfresh)).
    + reflexivity.
    + vm_compute. repeat constructor.
  - destruct (proj2 (anime_id_validation sample_env (Some "21") (arrival []) Hfresh)
                  (CoverQuery (Some 21)))
      as (s & z & n & Hs & _ & Hz & Hq & Hn); [vm_compute; auto |].
    injection Hs as <-. exists z. split; [exact Hz |].
    vm_compute in Hz. injection Hz as <-. split; [reflexivity |].
    rewrite (Hn eq_refl) in Hq. exact Hq.
Defined.

(** C8 as the specification words it fails: "0" and "-5" pass the
    validation, and the cover lookup is invoked with 0 and with -5. *)
Lemma cover_lookup_with_non_positive_id :
  invalid_anime_id (Some "0") = false /\
  queries (trace (handleAnimeCoverCommand sample_env (Some "0") (arrival [])).2)
  = [CoverQuery (Some 0)] /\
  invalid_anime_id (Some "-5") = false /\
  queries (trace (handleAnimeCoverCommand sample_env (Some "-5") (arrival [])).2)
  = [CoverQuery (Some (-5))] /\
  ~ 0 < 0 /\ ~ 0 < -5.
Proof. repeat split; try (vm_compute; reflexivity); lia. Qed.

(** * Further properties of the code *)

(** ** CacheService: overwriting, clearing, independence of keys *)

(** X1: a second [set] of a key replaces the first one altogether, value
    and time stamp: the cache is the one a single [set] would have left,
    and a read within the time to live of the second write returns the
    second value. *)
Theorem set_overwrites
    (this : CacheService) (key : string) (v1 v2 : Value) (t1 t2 t : Z) :
  (Cache.set t2 key v2 (Cache.set t1 key v1 this).2).2 = (Cache.set t2 key v2 this).2 /\
  (t - t2 <= ttl this ->
   (Cache.get t key (Cache.set t2 key v2 (Cache.set t1 key v1 this).2).2).1 = v2).
Proof.
  split.
  - unfold Cache.set; simpl. now rewrite insert_insert_eq.
  - intros Ht. rewrite get_after_set. simpl.
    destruct (Z.ltb_spec (ttl this) (t - t2)); [lia | reflexivity].
Qed.

Lemma set_overwrites_witness :
  (Cache.get 500000 "k"
     (Cache.set 400000 "k" (VNum 2) (Cache.set 0 "k" (VNum 1) (Cache.new 300000)).2).2).1
  = VNum 2.
Proof.
  apply (proj2 (set_overwrites (Cache.new 300000) "k" (VNum 1) (VNum 2) 0 400000 500000)).
  simpl. lia.
Defined.

(** X2: [clear] removes the entry of its key and nothing else: a read of
    the key returns [null] afterwards, whatever was stored and whenever it
    is read; the entries of the other keys stay; clearing a key that has no
    entry changes nothing, clearing twice is clearing once, and clearing
    after a [set] undoes the [set]. *)
Theorem clear_removes_one_entry (this : CacheService) (key : string) :
  (forall t, Cache.get t key (Cache.clear key this) = (VNull, Cache.clear key this)) /\
  (forall k, k <> key -> cache (Cache.clear key this) !! k = cache this !! k) /\
  (cache this !! key = None -> Cache.clear key this = this) /\
  Cache.clear key (Cache.clear key this) = Cache.clear key this /\
  (forall t v, Cache.clear key (Cache.set t key v this).2 = Cache.clear key this).
Proof.
  split; [| split; [| split; [| split]]].
  - intros t. apply get_after_clear.
  - intros k Hk. unfold Cache.clear; simpl. now apply lookup_delete_ne.
  - intros Hnone. destruct this as [m l]. unfold Cache.clear; simpl in *.
    now rewrite delete_id.
  - unfold Cache.clear; simpl. now rewrite delete_delete_eq.
  - intros t v. unfold Cache.clear, Cache.set; simpl. now rewrite delete_insert_eq.
Qed.

Lemma clear_removes_one_entry_witness :
  cache (Cache.clear "a" (Cache.set 0 "b" (VNum 1) (Cache.new 300000)).2) !! "b"
  = Some {| value := VNum 1; timestamp := 0 |} /\
  Cache.clear "a" (Cache.new 300000) = Cache.new 300000.
Proof.
  split.
  - rewrite (proj1 (proj2 (clear_removes_one_entry
                             (Cache.set 0 "b" (VNum 1) (Cache.new 300000)).2 "a")))
      by discriminate.
    simpl. apply lookup_insert_eq.
  - apply (proj1 (proj2 (proj2 (clear_removes_one_entry (Cache.new 300000) "a")))).
    simpl. apply lookup_empty.
Defined.

(** X3: the keys are independent. A [set] of one key leaves the entry of
    every other key as it was, and so does a [get], also the one that
    evicts its own expired entry; what a read of another key returns is
    therefore not affected by either. *)
Theorem other_keys_untouched
    (this : CacheService) (key other : string) (v : Value) (t t' : Z) :
  other <> key ->
  cache (Cache.set t key v this).2 !! other = cache this !! other /\
  cache (Cache.get t key this).2 !! other = cache this !! other /\
  (Cache.get t' other (Cache.set t key v this).2).1
  = (Cache.get t' other this).1 /\
  (Cache.get t' other (Cache.get t key this).2).1 = (Cache.get t' other this).1.
Proof.
  intros Hne.
  assert (Hset : cache (Cache.set t key v this).2 !! other = cache this !! other).
  { unfold Cache.set; simpl. now apply lookup_insert_ne. }
  assert (Hget : cache (Cache.get t key this).2 !! other = cache this !! other).
  { now apply get_shrinks. }
  assert (Httl : ttl (Cache.get t key this).2 = ttl this).
  { unfold Cache.get. destruct (cache this !! key) as [e |]; [| reflexivity].
    now destruct (ttl this <? t - timestamp e). }
  repeat split; [exact Hset | exact Hget | |].
  - unfold Cache.get. rewrite Hset. simpl ttl.
    destruct (cache this !! other) as [e |]; [| reflexivity].
    now destruct (ttl this <? t' - timestamp e).
  - unfold Cache.get at 1 3. rewrite Hget, Httl.
    destruct (cache this !! other) as [e |]; [| reflexivity].
    now destruct (ttl this <? t' - timestamp e).
Qed.

Lemma other_keys_untouched_witness :
  (Cache.get 10 "stats_bob"
     (Cache.set 5 "stats_alice" (VNum 2)
        (Cache.set 0 "stats_bob" (VNum 1) (Cache.new 300000)).2).2).1
  = (Cache.get 10 "stats_bob" (Cache.set 0 "stats_bob" (VNum 1) (Cache.new 300000)).2).1.
Proof.
  apply (other_keys_untouched
           (Cache.set 0 "stats_bob" (VNum 1) (Cache.new 300000)).2
           "stats_alice" "stats_bob" (VNum 2) 5 10).
  discriminate.
Defined.

(** X4: [get] is lazy and read-only. It never adds or alters an entry and
    never changes the time to live; when it returns a value other than
    [null] the cache is exactly what it was; and a second read of the key
    at the same instant returns the same value and changes nothing more. *)
Theorem get_is_read_only (this : CacheService) (key : string) (t : Z) :
  ((Cache.get t key this).1 <> VNull -> (Cache.get t key this).2 = this) /\
  Cache.get t key (Cache.get t key this).2 = Cache.get t key this /\
  ttl (Cache.get t key this).2 = ttl this /\
  (forall k e, cache (Cache.get t key this).2 !! k = Some e ->
               cache this !! k = Some e).
Proof.
  split; [| split; [| split]].
  - unfold Cache.get. destruct (cache this !! key) as [e |]; simpl; [| congruence].
    destruct (ttl this <? t - timestamp e); simpl; congruence.
  - unfold Cache.get at 2 3. destruct (cache this !! key) as [e |] eqn:He; simpl.
    + destruct (ttl this <? t - timestamp e) eqn:Hexp; simpl.
      * apply (get_after_clear this key t).
      * unfold Cache.get. now rewrite He, Hexp.
    + unfold Cache.get. now rewrite He.
  - unfold Cache.get. destruct (cache this !! key) as [e |]; [| reflexivity].
    now destruct (ttl this <? t - timestamp e).
  - apply get_shrinks.
Qed.

Lemma get_is_read_only_witness :
  (Cache.get 10 "k" (Cache.set 0 "k" (VNum 1) (Cache.new 300000)).2).2
  = (Cache.set 0 "k" (VNum 1) (Cache.new 300000)).2.
Proof.
  apply (proj1 (get_is_read_only (Cache.set 0 "k" (VNum 1) (Cache.new 300000)).2 "k" 10)).
  rewrite get_after_set. simpl. discriminate.
Defined.

(** ** fetchUserAnimeStats: the miss path *)

(** X5: write-through on a miss. When the lookup finds nothing truthy, the
    API answers with a user and a collection, and the aggregation returns
    the record [st], the fetch returns [st], has sent exactly the one
    request, has let the time of the request pass, and has stored [st]
    under [stats_<username>] stamped with the time after the request. *)
Theorem fetch_miss_writes_through
    (env : Env) (username : string) (w : World)
    (d : Api.StatsData) (u : unit) (c : Api.Collection) (st : AnimeStats) :
  truthy (Cache.get (now w) ("stats_" +:+ username) (service_cache w)).1 = false ->
  stats_api env (now w) username = Api.Resolved (Some d) ->
  Api.User d = Some u ->
  Api.MediaListCollection d = Some c ->
  aggregate (Api.lists c) = Ok st ->
  fetchUserAnimeStats env username w =
  (Ok (VStats st),
   {| service_cache :=
        (Cache.set (now w + latency env) ("stats_" +:+ username) (VStats st)
           (Cache.get (now w) ("stats_" +:+ username) (service_cache w)).2).2;
      now := now w + latency env;
      interaction := interaction w;
      trace := trace w ++ [StatsQuery username] |}).
Proof.
  intros Hmiss Hapi Huser Hcoll Hagg.
  unfold fetchUserAnimeStats, bind at 1, cache_get.
  destruct (Cache.get (now w) ("stats_" +:+ username) (service_cache w)) as [v0 c0].
  simpl in Hmiss |- *. rewrite Hmiss.
  unfold try_catch, fetch_and_aggregate, bind, post, lift, cache_set. simpl.
  rewrite Hapi, Huser, Hcoll, Hagg. reflexivity.
Qed.

Lemma fetch_miss_writes_through_witness :
  exists st w',
    fetchUserAnimeStats sample_env "alice" (arrival []) = (Ok (VStats st), w') /\
    now w' = 1120 /\ totalAnime st = 2%nat /\ averageScore st = JStr "85.00".
Proof.
  edestruct (aggregate (Some alice_lists)) as [st | err] eqn:Hagg;
    [| vm_compute in Hagg; discriminate].
  eexists st, _. split.
  - eapply (fetch_miss_writes_through sample_env "alice" (arrival [])
              _ tt {| Api.lists := Some alice_lists |} st);
      [vm_compute; reflexivity | reflexivity | reflexivity | reflexivity | exact Hagg].
  - vm_compute in Hagg. injection Hagg as <-. repeat split.
Defined.

(** X6: the failures of a miss. A rejected request is rethrown as the
    error of the transport, a response without data or without a
    collection as a [TypeError], a response without the user as "user not
    found", and an error of the aggregation as it is. In every case the
    failure is counted and logged after the one request, in this order,
    and the cache is what the opening lookup left. *)
Theorem fetch_failures (env : Env) (username : string) (w : World) :
  truthy (Cache.get (now w) ("stats_" +:+ username) (service_cache w)).1 = false ->
  let failed err :=
    fetchUserAnimeStats env username w =
    (Throw err,
     {| service_cache := (Cache.get (now w) ("stats_" +:+ username) (service_cache w)).2;
        now := now w + latency env;
        interaction := interaction w;
        trace := trace w ++ [StatsQuery username;
                             Metric (ErrorMetric "fetch_failure" "anime_stats");
                             Logged "Anime stats fetch failed"] |}) in
  (forall message,
     stats_api env (now w) username = Api.Rejected message ->
     failed (UpstreamError message)) /\
  (stats_api env (now w) username = Api.Resolved None -> failed TypeError) /\
  (forall d,
     stats_api env (now w) username = Api.Resolved (Some d) ->
     Api.User d = None -> failed (UserNotFound username)) /\
  (forall d u,
     stats_api env (now w) username = Api.Resolved (Some d) ->
     Api.User d = Some u -> Api.MediaListCollection d = None -> failed TypeError) /\
  (forall d u c err,
     stats_api env (now w) username = Api.Resolved (Some d) ->
     Api.User d = Some u -> Api.MediaListCollection d = Some c ->
     aggregate (Api.lists c) = Throw err -> failed err).
Proof.
  intros Hmiss failed. subst failed.
  split; [| split; [| split; [| split]]]; intros;
    unfold fetchUserAnimeStats, bind at 1, cache_get;
    destruct (Cache.get (now w) ("stats_" +:+ username) (service_cache w)) as [v0 c0];
    simpl in Hmiss |- *; rewrite Hmiss;
    unfold try_catch, fetch_and_aggregate, bind, post, lift, cache_set, emit, throw;
    simpl;
    repeat match goal with
           | H : stats_api _ _ _ = _ |- _ => rewrite H; clear H
           | H : Api.User _ = _ |- _ => rewrite H; clear H
           | H : Api.MediaListCollection _ = _ |- _ => rewrite H; clear H
           | H : aggregate _ = _ |- _ => rewrite H; clear H
           end;
    simpl; now rewrite <- !app_assoc.
Qed.

Lemma fetch_failures_witness :
  (fetchUserAnimeStats sample_env "bob" (arrival [])).1
  = Throw (UpstreamError "Request failed with status code 404").
Proof.
  rewrite (proj1 (fetch_failures sample_env "bob" (arrival []) eq_refl)
             "Request failed with status code 404" eq_refl).
  reflexivity.
Defined.

(** The cache a fetch leaves: the one its opening lookup left, with or
    without one entry written under the key of the user. *)
Lemma fetch_cache_cases (env : Env) (username : string) (w : World) :
  let c0 := (Cache.get (now w) ("stats_" +:+ username) (service_cache w)).2 in
  service_cache (fetchUserAnimeStats env username w).2 = c0 \/
  exists t v,
    service_cache (fetchUserAnimeStats env username w).2
    = (Cache.set t ("stats_" +:+ username) v c0).2.
Proof.
  intros c0. subst c0.
  destruct (fetchUserAnimeStats env username w) as [[v | err] w'] eqn:Hf.
  - revert Hf. unfold fetchUserAnimeStats, bind at 1, cache_get.
    destruct (Cache.get (now w) ("stats_" +:+ username) (service_cache w)) as [v0 c].
    destruct (truthy v0).
    + unfold bind, emit, ret; simpl. intros [= _ <-]. now left.
    + unfold try_catch.
      destruct (fetch_and_aggregate env username (set_cache c w))
        as [[v1 | e] w1] eqn:Hfa.
      * intros [= _ <-]. destruct (fetch_and_aggregate_ok _ _ _ _ _ Hfa) as (st & _ & Hc).
        right. simpl. rewrite Hc. eauto.
      * unfold bind, emit, throw; simpl. discriminate.
  - left. now destruct (fetch_throw_cache _ _ _ _ _ Hf).
Qed.

(** The fetch, step by step. *)
Lemma fetch_unfold (env : Env) (username : string) (w : World) :
  fetchUserAnimeStats env username w =
  let '(v0, c) := Cache.get (now w) ("stats_" +:+ username) (service_cache w) in
  if truthy v0 then
    (Ok v0,
     {| service_cache := c; now := now w; interaction := interaction w;
        trace := trace w ++ [Metric (CacheHit "anime_stats")] |})
  else
    match fetch_and_aggregate env username (set_cache c w) with
    | (Ok v, w1) => (Ok v, w1)
    | (Throw err, w1) =>
        (Throw err,
         {| service_cache := service_cache w1; now := now w1;
            interaction := interaction w1;
            trace := trace w1 ++ [Metric (ErrorMetric "fetch_failure" "anime_stats");
                                  Logged "Anime stats fetch failed"] |})
    end.
Proof.
  unfold fetchUserAnimeStats, bind at 1, cache_get.
  destruct (Cache.get (now w) ("stats_" +:+ username) (service_cache w)) as [v0 c].
  destruct (truthy v0); [reflexivity |].
  unfold try_catch.
  destruct (fetch_and_aggregate env username (set_cache c w)) as [[v | err] w1];
    [reflexivity |].
  unfold bind, emit, throw; simpl. now rewrite <- app_assoc.
Qed.

(** The try block sends its one request and lets its time pass. *)
Lemma fetch_and_aggregate_request (env : Env) (username : string) (w : World) :
  queries (trace (fetch_and_aggregate env username w).2)
  = queries (trace w) ++ [StatsQuery username] /\
  now (fetch_and_aggregate env username w).2 = now w + latency env.
Proof.
  unfold fetch_and_aggregate, bind, post, lift, cache_set, throw, set_cache.
  destruct (stats_api env (now w) username) as [msg | [d |]]; simpl;
    rewrite ?queries_app; auto.
  destruct (Api.User d); simpl; rewrite ?queries_app; auto.
  destruct (Api.MediaListCollection d) as [c1 |]; simpl; rewrite ?queries_app; auto.
  destruct (aggregate (Api.lists c1)); simpl; rewrite ?queries_app; auto.
Qed.

Lemma fetch_queries (env : Env) (username : string) (w : World) :
  queries (trace (fetchUserAnimeStats env username w).2)
  = queries (trace w)
    ++ (if truthy (Cache.get (now w) ("stats_" +:+ username) (service_cache w)).1
        then [] else [StatsQuery username]).
Proof.
  rewrite fetch_unfold.
  destruct (Cache.get (now w) ("stats_" +:+ username) (service_cache w)) as [v0 c].
  simpl fst. destruct (truthy v0).
  - simpl. rewrite queries_app. reflexivity.
  - destruct (fetch_and_aggregate_request env username (set_cache c w)) as [Hq _].
    destruct (fetch_and_aggregate env username (set_cache c w)) as [[v | err] w1];
      simpl in *; rewrite ?queries_app, Hq; simpl; rewrite ?app_nil_r; auto.
Qed.

(** X7: a fetch sends a request exactly when its opening lookup returns
    nothing truthy, and then exactly one, for the user asked for; the clock
    moves by the time of that request and not otherwise. *)
Theorem fetch_sends_one_request_on_a_miss (env : Env) (username : string) (w : World) :
  let hit := truthy (Cache.get (now w) ("stats_" +:+ username) (service_cache w)).1 in
  queries (trace (fetchUserAnimeStats env username w).2)
  = queries (trace w) ++ (if hit then [] else [StatsQuery username]) /\
  now (fetchUserAnimeStats env username w).2
  = now w + (if hit then 0 else latency env).
Proof.
  intros hit. subst hit. split; [apply fetch_queries |].
  rewrite fetch_unfold.
  destruct (Cache.get (now w) ("stats_" +:+ username) (service_cache w)) as [v0 c].
  simpl fst. destruct (truthy v0); [simpl; lia |].
  destruct (fetch_and_aggregate_request env username (set_cache c w)) as [_ Hn].
  destruct (fetch_and_aggregate env username (set_cache c w)) as [[v | err] w1];
    simpl in *; exact Hn.
Qed.

(** X8: a fetch touches nothing but the entry of its own user: the
    interaction and the time to live are as they were, and so is the entry
    of every other key, whatever the outcome. *)
Theorem fetch_touches_own_key_only
    (env : Env) (username : string) (w : World) (k : string) :
  k <> "stats_" +:+ username ->
  cache (service_cache (fetchUserAnimeStats env username w).2) !! k
  = cache (service_cache w) !! k /\
  ttl (service_cache (fetchUserAnimeStats env username w).2) = ttl (service_cache w) /\
  interaction (fetchUserAnimeStats env username w).2 = interaction w.
Proof.
  intros Hk.
  destruct (get_shrinks (now w) ("stats_" +:+ username) (service_cache w)) as [_ Hother].
  assert (Httl : ttl (Cache.get (now w) ("stats_" +:+ username) (service_cache w)).2
                 = ttl (service_cache w)).
  { unfold Cache.get.
    destruct (cache (service_cache w) !! ("stats_" +:+ username)) as [e |]; [| reflexivity].
    now destruct (ttl (service_cache w) <? now w - timestamp e). }
  split; [| split].
  - destruct (fetch_cache_cases env username w) as [-> | (t & v & ->)].
    + now apply Hother.
    + unfold Cache.set; simpl. rewrite lookup_insert_ne by congruence. now apply Hother.
  - destruct (fetch_cache_cases env username w) as [-> | (t & v & ->)];
      [exact Httl | exact Httl].
  - apply fetch_idle.
Qed.

Lemma fetch_touches_own_key_only_witness :
  cache (service_cache (fetchUserAnimeStats sample_env "alice" stale_world).2) !! "stats_bob"
  = cache (service_cache stale_world) !! "stats_bob".
Proof.
  apply (fetch_touches_own_key_only sample_env "alice" stale_world "stats_bob").
  discriminate.
Defined.

(** X9: the service cache holds statistics records only, and a fetch keeps
    it so; what a fetch returns from such a cache is a statistics record,
    never [null] or another value. *)
Theorem fetch_returns_records (env : Env) (username : string) (w : World) :
  stats_only (service_cache w) ->
  stats_only (service_cache (fetchUserAnimeStats env username w).2) /\
  forall v, (fetchUserAnimeStats env username w).1 = Ok v -> exists st, v = VStats st.
Proof.
  intros Hstats. split; [now apply fetch_keeps_stats_only |].
  intros v. unfold fetchUserAnimeStats, bind at 1, cache_get.
  pose proof (get_truthy (now w) ("stats_" +:+ username) (service_cache w)) as Hg.
  destruct (Cache.get (now w) ("stats_" +:+ username) (service_cache w)) as [v0 c].
  simpl in Hg. destruct (truthy v0).
  - unfold bind, emit, ret; simpl. intros [= <-].
    destruct (Hg eq_refl) as (_ & e & He & <-). apply (Hstats _ _ He).
  - unfold try_catch.
    destruct (fetch_and_aggregate env username (set_cache c w))
      as [[v1 | e] w1] eqn:Hfa; simpl.
    + intros [= <-]. destruct (fetch_and_aggregate_ok _ _ _ _ _ Hfa) as (st & -> & _).
      eauto.
    + unfold bind, emit, throw; simpl. discriminate.
Qed.

Lemma fetch_returns_records_witness :
  stats_only (service_cache (fetchUserAnimeStats sample_env "alice" stale_world).2) /\
  forall v, (fetchUserAnimeStats sample_env "alice" stale_world).1 = Ok v ->
            exists st, v = VStats st.
Proof.
  apply (fetch_returns_records sample_env "alice" stale_world).
  intros k e. unfold stale_world, Cache.set, Cache.new; simpl.
  rewrite lookup_insert. case_decide; [intros [= <-]; simpl; eauto |].
  rewrite lookup_empty. discriminate.
Defined.

(** ** The aggregation: which lists count, and what the average can be *)

Lemma category_app (ls more : list Api.MediaList) (nm : string) :
  (forall l, In l more -> Api.name l = nm ->
             exists l0, In l0 ls /\ Api.name l0 = nm) ->
  category (ls ++ more) nm = category ls nm.
Proof.
  intros Hmore. unfold category.
  induction ls as [| a ls IH]; simpl.
  - destruct (List.find _ more) as [l |] eqn:Hfind; [| reflexivity].
    apply List.find_some in Hfind as [Hin Hname].
    apply String.eqb_eq in Hname.
    destruct (Hmore l Hin Hname) as (l0 & [] & _).
  - destruct (String.eqb_spec (Api.name a) nm) as [Ha | Ha]; [reflexivity |].
    apply IH. intros l Hin Hname.
    destruct (Hmore l Hin Hname) as (l0 & [<- | Hin0] & Hname0); [contradiction | eauto].
Qed.

(** X10: lists that come after the ones read are ignored. Appending lists
    changes nothing when each of them either has a name that is no status
    name (a custom list) or repeats a name that occurs before it: of the
    lists of one name only the first counts. *)
Theorem appended_lists_are_ignored (ls more : list Api.MediaList) :
  (forall l, In l more ->
             ~ In (Api.name l) status_names \/
             exists l0, In l0 ls /\ Api.name l0 = Api.name l) ->
  aggregate (Some (ls ++ more)) = aggregate (Some ls).
Proof.
  intros Hmore.
  assert (Hcat : forall nm, In nm status_names ->
                            category (ls ++ more) nm = category ls nm).
  { intros nm Hnm. apply category_app. intros l Hin Hname.
    destruct (Hmore l Hin) as [Hno | (l0 & Hin0 & Hname0)].
    - rewrite Hname in Hno. contradiction.
    - exists l0. split; [exact Hin0 | congruence]. }
  unfold aggregate, all_entries.
  rewrite !Hcat by (unfold status_names; simpl; tauto). reflexivity.
Qed.

Lemma appended_lists_are_ignored_witness :
  aggregate (Some (alice_lists ++
                   [ {| Api.name := "Favourites"; Api.entries := Some [scored (Api.SNum 10)] |};
                     {| Api.name := "Completed"; Api.entries := Some [scored (Api.SNum 20)] |} ]))
  = aggregate (Some alice_lists).
Proof.
  apply appended_lists_are_ignored.
  intros l [<- | [<- | []]]; simpl.
  - left. intros H. repeat destruct H as [H | H]; try discriminate H; exact H.
  - right. eexists. split; [left; reflexivity | reflexivity].
Defined.

Lemma find_unique (ls : list Api.MediaList) (l : Api.MediaList) :
  List.NoDup (map Api.name ls) -> In l ls ->
  List.find (fun x => String.eqb (Api.name x) (Api.name l)) ls = Some l.
Proof.
  induction ls as [| a ls IH]; simpl; [tauto |].
  intros Hnd Hin. inversion Hnd as [| ? ? Hnotin Hnd']; subst.
  destruct (String.eqb_spec (Api.name a) (Api.name l)) as [Ha | Ha].
  - destruct Hin as [-> | Hin]; [reflexivity |].
    exfalso. apply Hnotin. rewrite Ha. now apply List.in_map.
  - destruct Hin as [-> | Hin]; [congruence | now apply IH].
Qed.

Lemma category_permutation (ls ls' : list Api.MediaList) (nm : string) :
  List.NoDup (map Api.name ls) -> Permutation ls ls' ->
  category ls nm = category ls' nm.
Proof.
  intros Hnd Hperm. unfold category.
  assert (Hnd' : List.NoDup (map Api.name ls')).
  { eapply Permutation_NoDup; [apply Permutation_map, Hperm | exact Hnd]. }
  destruct (List.find _ ls) as [l |] eqn:Hfind.
  - apply List.find_some in Hfind as [Hin Hname]. apply String.eqb_eq in Hname.
    pose proof (find_unique ls' l Hnd' (Permutation_in _ Hperm Hin)) as Hfind'.
    rewrite Hname in Hfind'. now rewrite Hfind'.
  - destruct (List.find _ ls') as [l' |] eqn:Hfind'; [| reflexivity].
    apply List.find_some in Hfind' as [Hin' Hname'].
    apply Permutation_sym in Hperm.
    rewrite (List.find_none _ _ Hfind l' (Permutation_in _ Hperm Hin')) in Hname'.
    discriminate.
Qed.

(** X11: when no two lists have the same name, the order in which the
    upstream returns the lists does not matter: the statistics of a
    collection and of any rearrangement of it are the same. *)
Theorem list_order_is_irrelevant (ls ls' : list Api.MediaList) :
  List.NoDup (map Api.name ls) -> Permutation ls ls' ->
  aggregate (Some ls) = aggregate (Some ls').
Proof.
  intros Hnd Hperm. unfold aggregate, all_entries.
  now rewrite !(category_permutation ls ls' _ Hnd Hperm).
Qed.

Lemma list_order_is_irrelevant_witness :
  aggregate (Some alice_lists) = aggregate (Some (rev alice_lists)).
Proof.
  apply list_order_is_irrelevant.
  - simpl. repeat constructor; simpl; intros H;
      repeat destruct H as [H | H]; try discriminate H; exact H.
  - apply Permutation_rev.
Defined.

Lemma entry_scores_map (es : list Api.Entry) :
  forallb has_media es = true -> entry_scores es = Ok (map score_of es).
Proof.
  induction es as [| e es IH]; simpl; [reflexivity |].
  intros H. apply andb_prop in H as [He Hes]. rewrite (IH Hes).
  unfold entry_score, score_of, has_media in *. now destruct (Api.media e).
Qed.

Lemma entry_scores_ok_media (es : list Api.Entry) (ss : list Api.Score) :
  entry_scores es = Ok ss -> forallb has_media es = true.
Proof.
  revert ss. induction es as [| e es IH]; simpl; [reflexivity |].
  intros ss. unfold entry_score, has_media.
  destruct (Api.media e); [| discriminate].
  destruct (entry_scores es) as [ss' | err]; [| discriminate].
  intros _. simpl. now apply (IH ss').
Qed.

Lemma entry_scores_error (es : list Api.Entry) (err : Error) :
  entry_scores es = Throw err -> err = TypeError.
Proof.
  induction es as [| e es IH]; simpl; [discriminate |].
  unfold entry_score. destruct (Api.media e); [| now intros [= <-]].
  destruct (entry_scores es) as [ss' | err']; [discriminate |].
  intros [= <-]. now apply IH.
Qed.

(** The average of a collection all of whose scores are present. *)
Lemma aggregate_average (ls : list Api.MediaList) :
  scores_present ls = true ->
  exists st,
    aggregate (Some ls) = Ok st /\
    averageScore st =
    match valid_scores ls with
    | [] => JNum 0
    | _ :: _ =>
        JStr (toFixed2 (js_div (sum_list (valid_scores ls))
                          (Z.of_nat (length (valid_scores ls)))))
    end.
Proof.
  intros Hpres.
  destruct (entry_scores_numbers _ Hpres) as (ss & Hss & Hvalid).
  fold (valid_scores ls) in Hvalid.
  destruct (aggregate_ok ls (has_score_media _ Hpres)) as (ss' & Hss' & ->).
  rewrite Hss in Hss'. injection Hss' as <-.
  eexists; split; [reflexivity |]. simpl. rewrite Hvalid, length_map.
  destruct (valid_scores ls) as [| z zs] eqn:Hzs; [reflexivity |].
  rewrite <- Hzs. replace (0 <? length (valid_scores ls))%nat with true
    by (rewrite Hzs; reflexivity).
  unfold average_text. now rewrite sum_scores_numbers, length_map.
Qed.

Lemma sum_list_bounds (zs : list Z) (lo hi : Z) :
  Forall (fun z => lo <= z <= hi) zs ->
  Z.of_nat (length zs) * lo <= sum_list zs <= Z.of_nat (length zs) * hi.
Proof.
  induction 1 as [| z zs Hz _ IH]; simpl length; simpl sum_list; [lia |].
  rewrite Nat2Z.inj_succ. lia.
Qed.

(** X12: the average stays within the range of the scores. When every
    score read is [null] or an integer between [lo] and [hi] (with
    [0 <= lo], the sum at most 2^45), and at least one is an integer, the
    average is the two-decimal text of a value between [lo] and [hi]: for
    scores from 0 to 100 it lies between 0.00 and 100.00. *)
Theorem average_within_score_range (ls : list Api.MediaList) (lo hi : Z) :
  scores_present ls = true ->
  valid_scores ls <> [] ->
  0 <= lo ->
  Forall (fun z => lo <= z <= hi) (valid_scores ls) ->
  sum_list (valid_scores ls) <= 2 ^ 45 ->
  exists st h,
    aggregate (Some ls) = Ok st /\
    averageScore st = JStr (fixed2 h) /\
    100 * lo <= h <= 100 * hi.
Proof.
  intros Hpres Hne Hlo Hrange Hsum.
  destruct (aggregate_average ls Hpres) as (st & Hst & Havg).
  pose proof (sum_list_bounds _ _ _ Hrange) as Hb.
  destruct (valid_scores ls) as [| z zs] eqn:Hzs; [congruence |].
  rewrite <- Hzs in *. clear Hne.
  set (n := Z.of_nat (length (valid_scores ls))) in *.
  assert (Hn : 0 < n) by (unfold n; rewrite Hzs; simpl length; lia).
  assert (Hs : 0 <= sum_list (valid_scores ls)) by nia.
  destruct (toFixed2_js_div (sum_list (valid_scores ls)) n) as (h & Hnear & Htext);
    [lia | exact Hn |].
  exists st, h. split; [exact Hst |]. split.
  - rewrite Havg, Htext.
    destruct (Z.ltb_spec (sum_list (valid_scores ls)) 0); [lia | reflexivity].
  - unfold nearest_hundredth in Hnear.
    rewrite (Z.abs_eq (sum_list (valid_scores ls))) in Hnear by exact Hs.
    clearbody n. clear - Hnear Hb Hn. nia.
Qed.

Lemma average_within_score_range_witness :
  exists st h,
    aggregate (Some alice_lists) = Ok st /\
    averageScore st = JStr (fixed2 h) /\ 100 * 0 <= h <= 100 * 100.
Proof.
  apply (average_within_score_range alice_lists 0 100).
  - reflexivity.
  - discriminate.
  - lia.
  - repeat constructor; lia.
  - vm_compute. discriminate.
Defined.

Lemma sum_scores_undefined (scores : list Api.Score) :
  In Api.SUndefined scores -> sum_scores scores = None.
Proof.
  unfold sum_scores.
  assert (Hnone : forall l, fold_left add_score l None = None)
    by (induction l; simpl; auto).
  generalize (Some 0). induction scores as [| s scores IH]; simpl; [tauto |].
  intros a [-> | Hin].
  - destruct a; simpl; apply Hnone.
  - now apply IH.
Qed.

(** X13: a missing score spoils the average. When the entries read all
    have a [media] object and one of them has no [averageScore], the
    aggregation still returns a record and its average is the text "NaN",
    whatever the other scores are. *)
Theorem undefined_score_gives_NaN (ls : list Api.MediaList) :
  well_formed ls = true ->
  In Api.SUndefined (map score_of (all_entries ls)) ->
  exists st, aggregate (Some ls) = Ok st /\ averageScore st = JStr "NaN".
Proof.
  intros Hwf Hin.
  destruct (aggregate_ok ls Hwf) as (ss & Hss & ->).
  rewrite (entry_scores_map _ Hwf) in Hss. injection Hss as <-.
  eexists; split; [reflexivity |]. simpl.
  assert (Hin' : In Api.SUndefined (List.filter not_null (map score_of (all_entries ls))))
    by (apply List.filter_In; auto).
  destruct (List.filter not_null (map score_of (all_entries ls))) as [| s l] eqn:Hf;
    [destruct Hin' |].
  simpl. unfold average_text. now rewrite (sum_scores_undefined _ Hin').
Qed.

Lemma undefined_score_gives_NaN_witness :
  exists st,
    aggregate (Some [ {| Api.name := "Dropped";
                         Api.entries := Some [scored (Api.SNum 70); scored Api.SUndefined;
                                              scored (Api.SNum 90)] |} ])
    = Ok st /\ averageScore st = JStr "NaN".
Proof.
  apply undefined_score_gives_NaN; [reflexivity |].
  simpl. auto.
Defined.

(** X14: the aggregation has one way to fail. For a [lists] field that is
    missing or an array of list objects (none of its elements is [null]),
    it returns a record exactly when the array is present and every entry
    it reads has a [media] object, and whatever it throws is a
    [TypeError]. *)
Theorem aggregate_fails_with_TypeError_only (lists : option (list Api.MediaList)) :
  ((exists st, aggregate lists = Ok st) <->
   exists ls, lists = Some ls /\ well_formed ls = true) /\
  (forall err, aggregate lists = Throw err -> err = TypeError).
Proof.
  split; [split |].
  - intros [st Hst]. destruct lists as [ls |]; [| discriminate].
    exists ls. split; [reflexivity |]. unfold aggregate in Hst.
    destruct (entry_scores (all_entries ls)) as [ss |] eqn:Hss; [| discriminate].
    apply (entry_scores_ok_media _ _ Hss).
  - intros (ls & -> & Hwf). destruct (aggregate_ok ls Hwf) as (ss & _ & ->). eauto.
  - intros err. destruct lists as [ls |]; simpl; [| now intros [= <-]].
    destruct (entry_scores (all_entries ls)) as [ss | e] eqn:Hss; [discriminate |].
    intros [= <-]. apply (entry_scores_error _ _ Hss).
Qed.

Lemma aggregate_fails_with_TypeError_only_witness :
  exists st, aggregate (Some alice_lists) = Ok st.
Proof.
  apply (proj1 (aggregate_fails_with_TypeError_only (Some alice_lists))).
  exists alice_lists. split; reflexivity.
Defined.

(** ** The average in the embed *)

Lemma has_point_app (a b : string) :
  has_point (a +:+ b) = has_point a || has_point b.
Proof.
  induction a as [| c a IH]; simpl; [reflexivity |]. now rewrite IH, orb_assoc.
Qed.

Lemma average_text_shape (scores : list Api.Score) :
  average_text scores = "NaN" \/ has_point (average_text scores) = true.
Proof.
  unfold average_text. destruct (sum_scores scores) as [s |]; [right | now left].
  unfold toFixed2, fixed2. rewrite !has_point_app. simpl.
  now rewrite !orb_true_r.
Qed.

Lemma no_score_iff_all_null (es : list Api.Entry) :
  List.filter not_null (map score_of es) = [] <->
  forall e, In e es -> score_of e = Api.SNull.
Proof.
  induction es as [| e es IH]; simpl.
  - split; [intros _ e [] | reflexivity].
  - destruct (score_of e) eqn:He; simpl.
    + rewrite IH. split.
      * intros H e' [<- | Hin]; [exact He | now apply H].
      * intros H e' Hin. apply H. now right.
    + split; [discriminate | intros H; specialize (H e (or_introl eq_refl)); congruence].
    + split; [discriminate | intros H; specialize (H e (or_introl eq_refl)); congruence].
Qed.

(** X15: the embed shows N/A for the average exactly when no entry read
    has a score, that is when they are all [null]. An average that is
    zero because the scores are zero is shown as a number, and so is the
    "NaN" of a missing score. *)
Theorem average_is_NA_iff_no_score (ls : list Api.MediaList) (st : AnimeStats) :
  aggregate (Some ls) = Ok st ->
  (average_field (averageScore st) = "N/A" <->
   forall e, In e (all_entries ls) -> score_of e = Api.SNull).
Proof.
  intros Hst.
  assert (Hwf : well_formed ls = true).
  { unfold aggregate in Hst.
    destruct (entry_scores (all_entries ls)) as [ss |] eqn:Hss; [| discriminate].
    apply (entry_scores_ok_media _ _ Hss). }
  destruct (aggregate_ok ls Hwf) as (ss & Hss & Hagg).
  rewrite (entry_scores_map _ Hwf) in Hss. injection Hss as <-.
  rewrite Hagg in Hst. injection Hst as <-. simpl.
  pose proof (no_score_iff_all_null (all_entries ls)) as Hnull.
  rewrite <- Hnull.
  destruct (List.filter not_null (map score_of (all_entries ls))) as [| s l] eqn:Hf.
  - simpl. split; reflexivity.
  - simpl (if (0 <? _)%nat then _ else _). unfold average_field.
    split; [| discriminate].
    destruct (average_text_shape (s :: l)) as [-> | Hpoint]; [discriminate |].
    destruct (String.eqb_spec (average_text (s :: l)) "") as [Hempty | _].
    + rewrite Hempty in Hpoint. discriminate.
    + intros Hna. rewrite Hna in Hpoint. discriminate.
Qed.

Lemma average_is_NA_iff_no_score_witness :
  exists st,
    aggregate (Some [ {| Api.name := "Planning";
                         Api.entries := Some [scored Api.SNull; scored Api.SNull] |} ])
    = Ok st /\
    average_field (averageScore st) = "N/A".
Proof.
  eexists. split; [reflexivity |].
  apply (average_is_NA_iff_no_score
           [ {| Api.name := "Planning";
                Api.entries := Some [scored Api.SNull; scored Api.SNull] |} ] _ eq_refl).
  intros e [<- | [<- | []]]; reflexivity.
Defined.

(** ** The handlers: what they return, request and store *)

#[local] Instance same_service_preorder : PreOrder same_service.
Proof.
  split.
  - intros w. split; reflexivity.
  - intros w1 w2 w3 [Hc1 Hn1] [Hc2 Hn2]. split; congruence.
Qed.

#[local] Instance same_cache_preorder : PreOrder same_cache.
Proof.
  split.
  - intros w. reflexivity.
  - intros w1 w2 w3 H1 H2. unfold same_cache in *. congruence.
Qed.

#[local] Instance same_cache_but_preorder (key : string) : PreOrder (same_cache_but key).
Proof.
  split.
  - intros w k _. reflexivity.
  - intros w1 w2 w3 H1 H2 k Hk. now rewrite (H2 k Hk), (H1 k Hk).
Qed.

Lemma same_service_emit (ev : Event) : steps same_service (emit ev).
Proof. intros w. split; reflexivity. Qed.

Lemma same_service_host_call (o : HostOp) (legal : Interaction -> bool)
    (refusal : Error) (after : Interaction -> Interaction) :
  steps same_service (host_call o legal refusal after).
Proof.
  intros w. unfold host_call.
  destruct (legal (interaction w)); [destruct (script (interaction w)) as [| [|] rest] |];
    split; reflexivity.
Qed.

Lemma same_service_last_resort (text : string) (m : Message) :
  steps same_service (last_resort text m).
Proof.
  unfold last_resort, reply, editReply.
  repeat first
    [ apply steps_bind; [typeclasses eauto | | intros ?]
    | apply steps_try_catch; [typeclasses eauto | | intros ?]
    | apply steps_ret; typeclasses eauto
    | apply steps_read_flags; typeclasses eauto
    | apply same_service_emit | apply same_service_host_call
    | match goal with
      | |- steps _ (match ?x with _ => _ end) => destruct x
      end ].
Qed.

Lemma same_service_cache {A} (m : M A) :
  steps same_service m -> steps same_cache m.
Proof. intros Hm w. apply Hm. Qed.

Lemma same_cache_post (env : Env) {A} (ev : Event) (answer : Z -> Api.Reply A) :
  steps same_cache (post env ev answer).
Proof. intros w. unfold post. now destruct (answer (now w)). Qed.

(** Events that are no requests leave the requests as they were. *)
Lemma queries_unchanged {A} (m : M A) (w : World) :
  steps (extends (fun ev => is_query ev = false)) m ->
  queries (trace (m w).2) = queries (trace w).
Proof.
  intros Hm. destruct (Hm w) as (t & -> & Hok). rewrite queries_app.
  replace (queries t) with (@nil Event); [apply app_nil_r |].
  induction Hok as [| ev t Hev _ IH]; [reflexivity |].
  unfold queries in *. simpl. now rewrite Hev.
Qed.

Lemma last_resort_no_query (text : string) (m : Message) :
  steps (extends (fun ev => is_query ev = false)) (last_resort text m).
Proof. unfold last_resort, reply, editReply. run_steps; reflexivity. Qed.

Lemma last_resort_returns (text : string) (m : Message) (w : World) :
  (last_resort text m w).1 = Ok tt.
Proof.
  unfold last_resort, bind at 1, emit, try_catch. simpl.
  match goal with |- context [bind read_flags ?k ?w0] => destruct (bind read_flags k w0) as [[[] | e] w1] end;
    reflexivity.
Qed.

(** X16: no exception leaves the [try] statement of a handler. Whatever
    the input, the upstream, the builder and the platform do, and whatever
    the flags of the interaction, the statistics handler, which is one
    [try] statement, returns normally; and so does the cover handler on an
    interaction that carries its [user], the one thing it reads before its
    [try] (line 327). On an interaction without [user] that read throws a
    [TypeError], which leaves the cover handler before anything is logged
    or replied. *)
Theorem handlers_never_throw (env : Env) (w : World) :
  (forall username, (handleAnimeStatsCommand env username w).1 = Ok tt) /\
  (forall animeIdStr, (handleAnimeCoverCommand env animeIdStr w).1 = Ok tt) /\
  (forall user animeIdStr,
     let run :=
       (let! username := read_username user in
        handleAnimeCoverCommand env animeIdStr) w in
     match user with
     | Some _ => run.1 = Ok tt
     | None => run = (Throw TypeError, w)
     end).
Proof.
  assert (Hcover : forall animeIdStr,
            (handleAnimeCoverCommand env animeIdStr w).1 = Ok tt).
  { intros input. rewrite cover_handler_shape, command_unfold.
    destruct (deferReply w) as [[[] | e] w1]; [| apply last_resort_returns].
    destruct (cover_body env input w1) as [[[] | e] w2];
      [reflexivity | apply last_resort_returns]. }
  split; [| split; [exact Hcover |]].
  - intros input. rewrite stats_handler_shape, command_unfold.
    destruct (deferReply w) as [[[] | e] w1]; [| apply last_resort_returns].
    destruct (stats_body env input w1) as [[[] | e] w2];
      [reflexivity | apply last_resort_returns].
  - intros [name |] input; unfold bind, read_username, ret, throw; cbn zeta;
      [apply Hcover | reflexivity].
Qed.

Lemma queries_after_bind {A B} (m : M A) (k : A -> M B) (w : World) :
  (forall a, steps (extends (fun ev => is_query ev = false)) (k a)) ->
  queries (trace (bind m k w).2) = queries (trace (m w).2).
Proof.
  intros Hk. unfold bind. destruct (m w) as [[a | e] w1]; [| reflexivity].
  apply (queries_unchanged (k a) w1 (Hk a)).
Qed.

Lemma queries_after_catch {A} (m : M A) (h : Error -> M A) (w : World) :
  (forall e, steps (extends (fun ev => is_query ev = false)) (h e)) ->
  queries (trace (try_catch m h w).2) = queries (trace (m w).2).
Proof.
  intros Hh. unfold try_catch. destruct (m w) as [[a | e] w1]; [reflexivity |].
  apply (queries_unchanged (h e) w1 (Hh e)).
Qed.

(** The requests of a command are those of its body. *)
Lemma command_queries (body : M unit) (text : string) (m : Message) (w : World) :
  fresh w ->
  queries (trace (try_catch (bind deferReply (fun _ => body))
                    (fun globalError => last_resort text m) w).2)
  = match (deferReply w).1 with
    | Ok _ => queries (trace (body (deferReply w).2).2)
    | Throw _ => []
    end.
Proof.
  intros Hfresh.
  rewrite queries_after_catch by (intros e; apply last_resort_no_query).
  destruct (deferReply_fresh w Hfresh) as (ok & w1 & Hw1 & Hres & Ht1 & _).
  unfold bind. destruct (deferReply w) as [r0 w0]. simpl in *. subst w0 r0.
  destruct ok; simpl; [reflexivity | now rewrite Ht1].
Qed.

Lemma deferReply_same_service (w : World) : same_service w (deferReply w).2.
Proof. apply same_service_host_call. Qed.

(** X17: the requests of a statistics command. A command sends a request
    only after its acknowledgement was accepted, only for a user name that
    is not empty, and only when the cache has nothing to return for that
    user; then it sends exactly one. *)
Theorem stats_command_requests (env : Env) (username : option string) (w : World) :
  fresh w ->
  queries (trace (handleAnimeStatsCommand env username w).2)
  = match (deferReply w).1, username with
    | Ok _, Some name =>
        if String.eqb name "" then []
        else if truthy (Cache.get (now w) ("stats_" +:+ name) (service_cache w)).1
             then [] else [StatsQuery name]
    | _, _ => []
    end.
Proof.
  intros Hfresh. rewrite stats_handler_shape, command_queries by exact Hfresh.
  destruct (deferReply_fresh w Hfresh) as (ok & w1 & Hw1 & Hres & Ht1 & _).
  destruct (deferReply_same_service w) as [Hc Hn].
  destruct (deferReply w) as [r0 w0]. simpl in *. subst w0 r0.
  destruct ok; simpl; [| reflexivity].
  assert (Hedit : forall p,
            queries (trace (editReply p w1).2) = []).
  { intros p. rewrite queries_unchanged; [now rewrite Ht1 |].
    unfold editReply. run_steps; reflexivity. }
  unfold stats_body. destruct username as [name |]; [| apply Hedit].
  destruct (String.eqb name ""); [apply Hedit |].
  rewrite queries_after_catch
    by (intros e; unfold editReply; run_steps; reflexivity).
  rewrite queries_after_bind.
  - rewrite fetch_queries, Ht1, Hc, Hn. reflexivity.
  - intros v. unfold createAnimeStatsEmbed, editReply. run_steps; reflexivity.
Qed.

Lemma stats_command_requests_witness :
  queries (trace (handleAnimeStatsCommand sample_env (Some "alice") (arrival [])).2)
  = [StatsQuery "alice"] /\
  queries (trace (handleAnimeStatsCommand sample_env (Some "alice") (arrival [false])).2)
  = [].
Proof.
  split.
  - rewrite (stats_command_requests sample_env (Some "alice") (arrival []))
      by (repeat split).
    vm_compute. reflexivity.
  - rewrite (stats_command_requests sample_env (Some "alice") (arrival [false]))
      by (repeat split).
    vm_compute. reflexivity.
Defined.

(** X18: the requests of a cover command, and its cache. A command whose
    acknowledgement was accepted and whose identifier passes the
    validation sends exactly one request, every time: nothing is cached,
    and the cache of the service is never touched. Otherwise it sends
    none. When the integer that the digits of the identifier write is
    below 2^53 in magnitude, where binary64 holds it exactly, the request
    is for that integer. Identifiers are strings of code units below
    256. *)
Theorem cover_command_requests (env : Env) (animeIdStr : option string) (w : World) :
  fresh w ->
  length (queries (trace (handleAnimeCoverCommand env animeIdStr w).2))
  = match (deferReply w).1 with
    | Ok _ => if invalid_anime_id animeIdStr then 0%nat else 1%nat
    | Throw _ => 0%nat
    end /\
  (in_exact_range (parseInt_option animeIdStr) = true ->
   queries (trace (handleAnimeCoverCommand env animeIdStr w).2)
   = match (deferReply w).1 with
     | Ok _ =>
         if invalid_anime_id animeIdStr then []
         else [CoverQuery (parseInt_option animeIdStr)]
     | Throw _ => []
     end) /\
  service_cache (handleAnimeCoverCommand env animeIdStr w).2 = service_cache w.
Proof.
  intros Hfresh.
  assert (Hq : queries (trace (handleAnimeCoverCommand env animeIdStr w).2)
               = match (deferReply w).1 with
                 | Ok _ =>
                     if invalid_anime_id animeIdStr then []
                     else [CoverQuery (parseInt_option animeIdStr)]
                 | Throw _ => []
                 end); [| split; [| split; [intros _; exact Hq |]]].
  - rewrite cover_handler_shape, command_queries by exact Hfresh.
    destruct (deferReply_fresh w Hfresh) as (ok & w1 & Hw1 & Hres & Ht1 & _).
    destruct (deferReply w) as [r0 w0]. simpl in *. subst w0 r0.
    destruct ok; simpl; [| reflexivity].
    unfold cover_body. destruct (invalid_anime_id animeIdStr).
    + rewrite queries_unchanged; [now rewrite Ht1 |].
      unfold editReply. run_steps; reflexivity.
    + rewrite queries_after_bind.
      * unfold fetchAnimeCoverById.
        rewrite queries_after_catch by (intros e; run_steps; reflexivity).
        rewrite queries_after_bind by (intros d; run_steps).
        unfold post. destruct (cover_api env (now w1) (parseInt_option animeIdStr));
          simpl; now rewrite queries_app, Ht1.
      * intros [url |]; unfold editReply; run_steps; reflexivity.
  - rewrite Hq. destruct (deferReply w).1; [| reflexivity].
    destruct (invalid_anime_id animeIdStr); reflexivity.
  - enough (H : steps same_cache (handleAnimeCoverCommand env animeIdStr)) by apply H.
    unfold handleAnimeCoverCommand, fetchAnimeCoverById, deferReply, editReply.
    repeat first
      [ apply same_service_cache, same_service_last_resort
      | apply steps_bind; [typeclasses eauto | | intros ?]
      | apply steps_try_catch; [typeclasses eauto | | intros ?]
      | apply steps_ret; typeclasses eauto
      | apply steps_throw; typeclasses eauto
      | apply steps_build; typeclasses eauto
      | apply same_cache_post
      | apply same_service_cache, same_service_emit
      | apply same_service_cache, same_service_host_call
      | match goal with
        | |- steps _ (match ?x with _ => _ end) => destruct x
        end ].
Qed.

Lemma cover_command_requests_witness :
  queries (trace (handleAnimeCoverCommand sample_env (Some "21") (arrival [])).2)
  = [CoverQuery (Some 21)].
Proof.
  rewrite (proj1 (proj2 (cover_command_requests sample_env (Some "21") (arrival [])
                           ltac:(repeat split))))
    by reflexivity.
  vm_compute. reflexivity.
Defined.

(** ** The handlers: which reply is sent *)

Lemma answers_after_idle {A B} (p : Payload) (m : M A) (k : A -> M B)
    (w : World) (a : A) :
  (m w).1 = Ok a ->
  extends_idle w (m w).2 ->
  (forall w2, interaction w2 = interaction w -> answers_with p (k a) w2) ->
  answers_with p (bind m k) w.
Proof.
  intros Hok (Hi & t1 & Ht1 & Hnone) Hk. apply idle_no_calls in Hnone.
  unfold answers_with, bind.
  destruct (m w) as [[a' | e] w1]; simpl in *; [| discriminate].
  injection Hok as ->.
  destruct (Hk w1 Hi) as (t2 & Ht2 & Hres). exists (t1 ++ t2).
  split; [now rewrite Ht2, Ht1, app_assoc |].
  intros Hacc. apply all_accepted_app in Hacc as [_ Hacc].
  rewrite host_calls_app, Hnone. now apply Hres.
Qed.

Lemma answers_in_try {A} (p : Payload) (m : M A) (h : Error -> M A) (w : World) :
  answers_with p m w ->
  (forall e, steps (extends (fun _ => True)) (h e)) ->
  answers_with p (try_catch m h) w.
Proof.
  intros (t1 & Ht1 & Hres) Hh. unfold answers_with, try_catch.
  destruct (m w) as [[a | e] w1]; simpl in *.
  - exists t1. split; [exact Ht1 |]. intros Hacc.
    destruct (Hres Hacc) as [Hc _]. eauto.
  - destruct (Hh e w1) as (t2 & Ht2 & _). exists (t1 ++ t2).
    split; [now rewrite Ht2, Ht1, app_assoc |].
    intros Hacc. apply all_accepted_app in Hacc as [Hacc _].
    destruct (Hres Hacc) as (_ & a & [=]).
Qed.

Lemma stats_catch_extends (name : string) (e : Error) :
  steps (extends (fun _ => True))
    (do! emit (Logged "Anime stats command processing error") in
     editReply (Content (MsgStatsFailed name))).
Proof. unfold editReply. run_steps; intros; exact I. Qed.

Lemma embed_of_record (env : Env) (name : string) (st : AnimeStats) :
  createAnimeStatsEmbed env name (VStats st)
  = build (builder_accepts env) (stats_embed name st).
Proof. reflexivity. Qed.

(** X19: a statistics command without a user name. When the option is
    missing or empty, the command leaves the cache and the clock alone,
    and when the platform accepts the calls its one reply is the request
    for a valid user name. *)
Theorem stats_command_without_name (env : Env) (username : option string) (w : World) :
  fresh w ->
  username = None \/ username = Some "" ->
  same_service w (handleAnimeStatsCommand env username w).2 /\
  (all_accepted (trace (handleAnimeStatsCommand env username w).2) ->
   host_calls (trace (handleAnimeStatsCommand env username w).2)
   = [defer_ok; edit_ok (Content MsgProvideUsername)]).
Proof.
  intros Hfresh Hname.
  assert (Hbody : stats_body env username = editReply (Content MsgProvideUsername))
    by (destruct Hname as [-> | ->]; reflexivity).
  rewrite stats_handler_shape, Hbody. split.
  - enough (H : steps same_service
                  (try_catch
                     (do! deferReply in editReply (Content MsgProvideUsername))
                     (fun _ => last_resort "Critical error in anime stats command"
                                 MsgUnexpected))) by apply H.
    apply steps_try_catch; [typeclasses eauto | | intros e; apply same_service_last_resort].
    apply steps_bind; [typeclasses eauto | | intros _]; apply same_service_host_call.
  - apply command_reply; [exact Hfresh |]. apply answers_editReply.
Qed.

Lemma stats_command_without_name_witness :
  host_calls (trace (handleAnimeStatsCommand sample_env (Some "") (arrival [])).2)
  = [defer_ok; edit_ok (Content MsgProvideUsername)].
Proof.
  apply (stats_command_without_name sample_env (Some "") (arrival [])).
  - repeat split.
  - now right.
  - vm_compute. repeat constructor.
Defined.

(** X20: the reply of a successful statistics command. When the fetch
    returns the record [st], the builder accepts the embed made of it and
    the platform accepts the calls, the one reply is that embed: the user
    name in the title, the six counts and the average as the fetch returned
    them. *)
Theorem stats_command_success (env : Env) (name : string) (w : World) (st : AnimeStats) :
  fresh w ->
  name <> "" ->
  (fetchUserAnimeStats env name (deferReply w).2).1 = Ok (VStats st) ->
  builder_accepts env (stats_embed name st) = true ->
  all_accepted (trace (handleAnimeStatsCommand env (Some name) w).2) ->
  host_calls (trace (handleAnimeStatsCommand env (Some name) w).2)
  = [defer_ok; edit_ok (Embeds (stats_embed name st))].
Proof.
  intros Hfresh Hname Hfetch Hacc. rewrite stats_handler_shape.
  apply command_reply; [exact Hfresh |]. intros Hpen.
  unfold stats_body. destruct (String.eqb_spec name ""); [contradiction |].
  apply answers_in_try; [| apply stats_catch_extends].
  apply answers_after_idle with (VStats st); [exact Hfetch | apply fetch_idle |].
  intros w2 Hi. rewrite embed_of_record. unfold build. rewrite Hacc.
  unfold answers_with, bind, ret. simpl.
  apply answers_editReply. unfold pending. now rewrite Hi.
Qed.

Lemma stats_command_success_witness :
  exists st,
    host_calls (trace (handleAnimeStatsCommand sample_env (Some "alice") (arrival [])).2)
    = [defer_ok; edit_ok (Embeds (stats_embed "alice" st))] /\
    averageScore st = JStr "85.00".
Proof.
  destruct (fetchUserAnimeStats sample_env "alice" (deferReply (arrival [])).2)
    as [r w1] eqn:Hfetch.
  assert (Hr : exists st, r = Ok (VStats st) /\ averageScore st = JStr "85.00").
  { apply (f_equal fst) in Hfetch. vm_compute in Hfetch. subst r. eauto. }
  destruct Hr as (st & -> & Havg). exists st. split; [| exact Havg].
  apply (stats_command_success sample_env "alice" (arrival []) st).
  - repeat split.
  - discriminate.
  - now rewrite Hfetch.
  - reflexivity.
  - vm_compute. repeat constructor.
Defined.

(** X21: a builder that refuses the embed. When the fetch has returned a
    record but the builder throws on the embed made of it, the inner catch
    of the command takes over: with the calls accepted, the one reply is
    the message of a failed fetch, although the fetch succeeded. *)
Theorem stats_command_render_failure
    (env : Env) (name : string) (w : World) (st : AnimeStats) :
  fresh w ->
  name <> "" ->
  (fetchUserAnimeStats env name (deferReply w).2).1 = Ok (VStats st) ->
  builder_accepts env (stats_embed name st) = false ->
  all_accepted (trace (handleAnimeStatsCommand env (Some name) w).2) ->
  host_calls (trace (handleAnimeStatsCommand env (Some name) w).2)
  = [defer_ok; edit_ok (Content (MsgStatsFailed name))].
Proof.
  intros Hfresh Hname Hfetch Hrej. rewrite stats_handler_shape.
  apply command_reply; [exact Hfresh |]. intros Hpen.
  unfold stats_body. destruct (String.eqb_spec name ""); [contradiction |].
  pose proof (fetch_idle env name (deferReply w).2) as Hidle.
  assert (Hrun :
            (let! stats := fetchUserAnimeStats env name in
             let! statsEmbed := createAnimeStatsEmbed env name stats in
             editReply (Embeds statsEmbed)) (deferReply w).2
            = (Throw RenderError, (fetchUserAnimeStats env name (deferReply w).2).2)).
  { unfold bind at 1.
    destruct (fetchUserAnimeStats env name (deferReply w).2) as [r w2].
    simpl in Hfetch. subst r. rewrite embed_of_record. unfold build. rewrite Hrej.
    reflexivity. }
  apply answers_catch with RenderError.
  - now rewrite Hrun.
  - rewrite Hrun. exact Hidle.
  - intros w2 Hi. apply answers_after_emit; [reflexivity |].
    intros w3 Hi3. apply answers_editReply. unfold pending. rewrite Hi3, Hi. exact Hpen.
Qed.

Lemma stats_command_render_failure_witness :
  host_calls
    (trace (handleAnimeStatsCommand
              {| stats_api := stats_api sample_env; cover_api := cover_api sample_env;
                 latency := 120; builder_accepts := fun _ => false |}
              (Some "alice") (arrival [])).2)
  = [defer_ok; edit_ok (Content (MsgStatsFailed "alice"))].
Proof.
  set (env := {| stats_api := stats_api sample_env; cover_api := cover_api sample_env;
                 latency := 120; builder_accepts := fun _ => false |}).
  destruct (fetchUserAnimeStats env "alice" (deferReply (arrival [])).2)
    as [r w1] eqn:Hfetch.
  assert (Hr : exists st, r = Ok (VStats st)).
  { apply (f_equal fst) in Hfetch. vm_compute in Hfetch. subst r. eauto. }
  destruct Hr as (st & ->).
  apply (stats_command_render_failure env "alice" (arrival []) st).
  - repeat split.
  - discriminate.
  - now rewrite Hfetch.
  - reflexivity.
  - vm_compute. repeat constructor.
Defined.

Lemma cover_body_valid (env : Env) (animeIdStr : option string) :
  invalid_anime_id animeIdStr = false ->
  cover_body env animeIdStr =
  (let! coverImage := fetchAnimeCoverById env (parseInt_option animeIdStr) in
   match coverImage with
   | None =>
       do! emit (Metric (ApiRequestMetric "anime_cover" "failure")) in
       editReply (Content MsgNoCover)
   | Some url =>
       do! emit (Metric (ApiRequestMetric "anime_cover" "success")) in
       let! embed := build (builder_accepts env)
                       (cover_embed (parseInt_option animeIdStr) url) in
       editReply (Embeds embed)
   end).
Proof. intros Hvalid. unfold cover_body. now rewrite Hvalid. Qed.

(** X22: the replies of a cover command whose identifier is valid and
    writes an integer below 2^53 in magnitude, where binary64 holds it
    exactly, with the calls accepted. When the lookup for that integer
    returns no cover the one reply says so, and it is not the error
    message; when it returns a URL the reply is the embed with that URL as
    image and the integer in the title, unless the builder refuses the
    embed, in which case the last resort sends the error message.
    Identifiers are strings of code units below 256. *)
Theorem cover_command_replies (env : Env) (animeIdStr : option string) (w : World) :
  fresh w ->
  invalid_anime_id animeIdStr = false ->
  in_exact_range (parseInt_option animeIdStr) = true ->
  all_accepted (trace (handleAnimeCoverCommand env animeIdStr w).2) ->
  let animeId := parseInt_option animeIdStr in
  forall coverImage,
    (fetchAnimeCoverById env animeId (deferReply w).2).1 = Ok coverImage ->
    host_calls (trace (handleAnimeCoverCommand env animeIdStr w).2)
    = [defer_ok;
       edit_ok
         match coverImage with
         | None => Content MsgNoCover
         | Some url =>
             if builder_accepts env (cover_embed animeId url)
             then Embeds (cover_embed animeId url)
             else Content MsgCoverFailed
         end].
Proof.
  intros Hfresh Hvalid _ Hacc animeId coverImage Hcover. subst animeId.
  revert Hacc. rewrite cover_handler_shape, (cover_body_valid env _ Hvalid).
  pose proof (cover_idle env (parseInt_option animeIdStr) (deferReply w).2) as Hidle.
  destruct coverImage as [url |];
    [destruct (builder_accepts env (cover_embed (parseInt_option animeIdStr) url))
       eqn:Hbuild |].
  - apply command_reply; [exact Hfresh |]. intros Hpen.
    apply answers_after_idle with (Some url); [exact Hcover | exact Hidle |].
    intros w2 Hi. apply answers_after_emit; [reflexivity |]. intros w3 Hi3.
    unfold build. rewrite Hbuild. unfold answers_with, bind, ret. simpl.
    apply answers_editReply. unfold pending. rewrite Hi3, Hi. exact Hpen.
  - apply command_fallback with RenderError; [exact Hfresh | |];
      unfold bind at 1;
      destruct (fetchAnimeCoverById env (parseInt_option animeIdStr) (deferReply w).2)
        as [r w2]; simpl in Hcover, Hidle; subst r;
      unfold bind, emit, build; rewrite Hbuild; simpl; [reflexivity |].
    destruct Hidle as (Hi & t & Ht & Hnone). split; [exact Hi |].
    exists (t ++ [Metric (ApiRequestMetric "anime_cover" "success")]).
    split; [now rewrite Ht, app_assoc |]. apply Forall_app. split; [exact Hnone |].
    repeat constructor.
  - apply command_reply; [exact Hfresh |]. intros Hpen.
    apply answers_after_idle with None; [exact Hcover | exact Hidle |].
    intros w2 Hi. apply answers_after_emit; [reflexivity |]. intros w3 Hi3.
    apply answers_editReply. unfold pending. rewrite Hi3, Hi. exact Hpen.
Qed.

Lemma cover_command_replies_witness :
  host_calls (trace (handleAnimeCoverCommand sample_env (Some "999999") (arrival [])).2)
  = [defer_ok; edit_ok (Content MsgNoCover)] /\
  host_calls (trace (handleAnimeCoverCommand sample_env (Some "21") (arrival [])).2)
  = [defer_ok;
     edit_ok (Embeds (cover_embed (Some 21) "https://img.example/21.jpg"))].
Proof.
  split.
  - apply (cover_command_replies sample_env (Some "999999") (arrival [])
             ltac:(repeat split) eq_refl eq_refl
             ltac:(vm_compute; repeat constructor) None).
    vm_compute. reflexivity.
  - apply (cover_command_replies sample_env (Some "21") (arrival [])
             ltac:(repeat split) eq_refl eq_refl
             ltac:(vm_compute; repeat constructor)
             (Some "https://img.example/21.jpg")).
    vm_compute. reflexivity.
Defined.

Lemma same_service_but (key : string) {A} (m : M A) :
  steps same_service m -> steps (same_cache_but key) m.
Proof. intros Hm w k _. destruct (Hm w) as [-> _]. reflexivity. Qed.

Lemma fetch_same_cache_but (env : Env) (username : string) :
  steps (same_cache_but ("stats_" +:+ username)) (fetchUserAnimeStats env username).
Proof.
  intros w k Hk.
  destruct (get_shrinks (now w) ("stats_" +:+ username) (service_cache w)) as [_ Hother].
  destruct (fetch_cache_cases env username w) as [-> | (t & v & ->)].
  - now apply Hother.
  - unfold Cache.set; simpl. rewrite lookup_insert_ne by congruence. now apply Hother.
Qed.

(** X23: what a statistics command stores. The command changes the cache
    under the key [stats_<username>] of its own user at most: the entry of
    every other key is as it was, whatever the outcome, and a command
    without a user name leaves every entry as it was. *)
Theorem stats_command_touches_own_key_only
    (env : Env) (username : option string) (w : World) (k : string) :
  (forall name, username = Some name -> k <> "stats_" +:+ name) ->
  cache (service_cache (handleAnimeStatsCommand env username w).2) !! k
  = cache (service_cache w) !! k.
Proof.
  intros Hk.
  set (key := match username with Some name => "stats_" +:+ name | None => "" end).
  enough (H : steps (same_cache_but key) (handleAnimeStatsCommand env username)
              /\ (k <> key \/ username = None)).
  { destruct H as [H [Hne | ->]]; [now apply H |]. 
    enough (H' : steps same_service (handleAnimeStatsCommand env None))
      by (destruct (H' w) as [-> _]; reflexivity).
    unfold handleAnimeStatsCommand, deferReply, editReply.
    apply steps_try_catch; [typeclasses eauto | | intros e; apply same_service_last_resort].
    apply steps_bind; [typeclasses eauto | | intros _]; apply same_service_host_call. }
  split.
  - unfold handleAnimeStatsCommand, createAnimeStatsEmbed, deferReply, editReply.
    repeat first
      [ apply same_service_but, same_service_last_resort
      | apply fetch_same_cache_but
      | apply steps_bind; [typeclasses eauto | | intros ?]
      | apply steps_try_catch; [typeclasses eauto | | intros ?]
      | apply steps_throw; typeclasses eauto
      | apply steps_build; typeclasses eauto
      | apply same_service_but, same_service_emit
      | apply same_service_but, same_service_host_call
      | match goal with
        | |- steps _ (match ?x with _ => _ end) => destruct x
        end ].
  - destruct username as [name |]; [left; now apply Hk | now right].
Qed.

Lemma stats_command_touches_own_key_only_witness :
  cache (service_cache (handleAnimeStatsCommand sample_env (Some "alice") stale_world).2)
    !! "stats_bob"
  = cache (service_cache stale_world) !! "stats_bob".
Proof.
  apply (stats_command_touches_own_key_only sample_env (Some "alice") stale_world).
  intros name [= <-]. discriminate.
Defined.

(** X24: a rejected acknowledgement. When the platform rejects
    [deferReply], nothing of the command is run: the error is logged and
    the last resort answers with [reply], not [editReply], since neither
    flag is set; when that call is rejected too, this is logged and
    nothing else is tried. *)
Theorem rejected_acknowledgement (env : Env) (w : World) (rest : list bool) :
  fresh w ->
  script (interaction w) = false :: rest ->
  let ok := match rest with false :: _ => false | _ => true end in
  let run text m :=
    [Host {| op := DeferReply; deferred_before := false; replied_before := false;
             accepted := false |};
     Logged text;
     Host {| op := Reply (Content m); deferred_before := false;
             replied_before := false; accepted := ok |}]
    ++ (if ok then [] else [Logged "Failed to send final error message"]) in
  (forall username,
     trace (handleAnimeStatsCommand env username w).2
     = run "Critical error in anime stats command" MsgUnexpected) /\
  (forall animeIdStr,
     trace (handleAnimeCoverCommand env animeIdStr w).2
     = run "Critical error in anime cover command" MsgCoverFailed).
Proof.
  intros (Hd & Hr & Ht) Hscript ok run. subst ok run.
  destruct w as [c n [d r sc] tr]. simpl in *. subst d r tr sc.
  split; intros input;
    [rewrite stats_handler_shape | rewrite cover_handler_shape];
    rewrite command_unfold; simpl;
    unfold last_resort, bind, emit, try_catch, read_flags, reply, host_call; simpl;
    destruct rest as [| [|] rest']; reflexivity.
Qed.

Lemma rejected_acknowledgement_witness :
  trace (handleAnimeCoverCommand sample_env (Some "21") (arrival [false; false])).2
  = [Host {| op := DeferReply; deferred_before := false; replied_before := false;
             accepted := false |};
     Logged "Critical error in anime cover command";
     Host {| op := Reply (Content MsgCoverFailed); deferred_before := false;
             replied_before := false; accepted := false |};
     Logged "Failed to send final error message"].
Proof.
  apply (proj2 (rejected_acknowledgement sample_env (arrival [false; false]) [false]
                  ltac:(repeat split) eq_refl)).
Defined.

(** ** The metric of the cover lookups *)

Lemma selected_unchanged (sel : Event -> bool) {A} (m : M A) (w : World) :
  steps (extends (fun ev => sel ev = false)) m ->
  List.filter sel (trace (m w).2) = List.filter sel (trace w).
Proof.
  intros Hm. destruct (Hm w) as (t & -> & Hok). rewrite List.filter_app.
  replace (List.filter sel t) with (@nil Event); [apply app_nil_r |].
  induction Hok as [| ev t Hev _ IH]; [reflexivity |].
  simpl. now rewrite Hev.
Qed.

Lemma selected_after_bind (sel : Event -> bool) {A B} (m : M A) (k : A -> M B)
    (w : World) :
  (forall a, steps (extends (fun ev => sel ev = false)) (k a)) ->
  List.filter sel (trace (bind m k w).2) = List.filter sel (trace (m w).2).
Proof.
  intros Hk. unfold bind. destruct (m w) as [[a | e] w1]; [| reflexivity].
  apply (selected_unchanged sel (k a) w1 (Hk a)).
Qed.

Lemma selected_after_catch (sel : Event -> bool) {A} (m : M A) (h : Error -> M A)
    (w : World) :
  (forall e, steps (extends (fun ev => sel ev = false)) (h e)) ->
  List.filter sel (trace (try_catch m h w).2) = List.filter sel (trace (m w).2).
Proof.
  intros Hh. unfold try_catch. destruct (m w) as [[a | e] w1]; [reflexivity |].
  apply (selected_unchanged sel (h e) w1 (Hh e)).
Qed.

(** The lookup itself counts a request only when it fails. *)
Lemma cover_lookup_metric (env : Env) (animeId : option Z) (w : World) :
  List.filter is_api_metric (trace (fetchAnimeCoverById env animeId w).2)
  = List.filter is_api_metric (trace w)
    ++ match (fetchAnimeCoverById env animeId w).1 with
       | Ok _ => []
       | Throw _ => [Metric (ApiRequestMetric "anime_cover" "failure")]
       end.
Proof.
  unfold fetchAnimeCoverById, try_catch, bind, post, emit, throw, ret.
  destruct (cover_api env (now w) animeId); simpl;
    rewrite ?List.filter_app; simpl; rewrite ?app_nil_r; reflexivity.
Qed.

(** X25: every cover lookup is counted exactly once. A cover command
    reports one API request to the metrics for the one request it sends,
    as a success when the lookup returned a URL and as a failure when it
    returned none or threw; a command that sends no request reports
    none. *)
Theorem cover_lookup_is_counted_once
    (env : Env) (animeIdStr : option string) (w : World) :
  fresh w ->
  List.filter is_api_metric (trace (handleAnimeCoverCommand env animeIdStr w).2)
  = match (deferReply w).1 with
    | Ok _ =>
        if invalid_anime_id animeIdStr then []
        else
          [Metric
             (ApiRequestMetric "anime_cover"
                match (fetchAnimeCoverById env (parseInt_option animeIdStr)
                         (deferReply w).2).1 with
                | Ok (Some _) => "success"
                | _ => "failure"
                end)]
    | Throw _ => []
    end.
Proof.
  intros Hfresh. rewrite cover_handler_shape.
  rewrite selected_after_catch
    by (intros e; unfold last_resort, reply, editReply; run_steps; reflexivity).
  destruct (deferReply_fresh w Hfresh) as (ok & w1 & Hw1 & Hres & Ht1 & _).
  unfold bind at 1. destruct (deferReply w) as [r0 w0]. simpl in *. subst w0 r0.
  assert (H1 : List.filter is_api_metric (trace w1) = []) by now rewrite Ht1.
  destruct ok; simpl; [| exact H1].
  unfold cover_body. destruct (invalid_anime_id animeIdStr).
  - rewrite selected_unchanged; [exact H1 |].
    unfold editReply. run_steps; reflexivity.
  - pose proof (cover_lookup_metric env (parseInt_option animeIdStr) w1) as Hm.
    rewrite H1 in Hm. simpl in Hm. unfold bind at 1.
    destruct (fetchAnimeCoverById env (parseInt_option animeIdStr) w1)
      as [[[url |] | e] w2]; simpl in *; [| | exact Hm].
    + rewrite selected_after_bind
        by (intros []; unfold editReply; run_steps; reflexivity).
      unfold emit. simpl. now rewrite List.filter_app, Hm.
    + rewrite selected_after_bind
        by (intros []; unfold editReply; run_steps; reflexivity).
      unfold emit. simpl. now rewrite List.filter_app, Hm.
Qed.

Lemma cover_lookup_is_counted_once_witness :
  List.filter is_api_metric
    (trace (handleAnimeCoverCommand sample_env (Some "-1") (arrival [])).2)
  = [Metric (ApiRequestMetric "anime_cover" "failure")].
Proof.
  rewrite (cover_lookup_is_counted_once sample_env (Some "-1") (arrival []))
    by (repeat split).
  vm_compute. reflexivity.
Defined.

(** ** Identifiers that pass the validation *)

Lemma read_digits_grows (s : string) (a : Z) :
  0 < a -> exists z, read_digits 10 s (Some a) = Some z /\ a <= z.
Proof.
  revert a. induction s as [| c s IH]; simpl; intros a Ha; [eauto with zarith |].
  unfold digit_value.
  set (n := Z.of_nat (nat_of_ascii c)).
  destruct ((48 <=? n) && (n <=? 57)) eqn:Hdigit.
  - apply andb_prop in Hdigit as [H1 H2].
    apply Z.leb_le in H1. apply Z.leb_le in H2.
    destruct (Z.ltb_spec (n - 48) 10); [| lia].
    destruct (IH (a * 10 + (n - 48)) ltac:(lia)) as (z & Hz & Hle).
    exists z. split; [exact Hz | lia].
  - destruct ((97 <=? n) && (n <=? 122)) eqn:Hlower.
    + apply andb_prop in Hlower as [H1 H2]. apply Z.leb_le in H1.
      destruct (Z.ltb_spec (n - 87) 10); [lia |]. exists a. split; [reflexivity | lia].
    + destruct ((65 <=? n) && (n <=? 90)) eqn:Hupper.
      * apply andb_prop in Hupper as [H1 H2]. apply Z.leb_le in H1.
        destruct (Z.ltb_spec (n - 55) 10); [lia |]. exists a. split; [reflexivity | lia].
      * rewrite Z.ltb_irrefl. exists a. split; [reflexivity | lia].
Qed.

Lemma parseInt_leading_digit (c : ascii) (rest : string) :
  49 <= Z.of_nat (nat_of_ascii c) <= 57 ->
  parseInt (String c rest)
  = match read_digits 10 rest (Some (Z.of_nat (nat_of_ascii c) - 48)) with
    | Some n => Some (1 * n)
    | None => None
    end.
Proof.
  intros Hc.
  destruct c as [[] [] [] [] [] [] [] []]; vm_compute in Hc;
    try (exfalso; destruct Hc as [H1 H2]; (now apply H1) || (now apply H2));
    reflexivity.
Qed.

(** X26: an identifier that begins with a digit from 1 to 9 passes the
    validation whatever follows its digits, and the integer read from it,
    with which the cover lookup is invoked, is positive. *)
Theorem leading_digit_identifier_is_valid (c : ascii) (rest : string) :
  49 <= Z.of_nat (nat_of_ascii c) <= 57 ->
  invalid_anime_id (Some (String c rest)) = false /\
  exists z, parseInt_option (Some (String c rest)) = Some z /\ 0 < z.
Proof.
  intros Hc.
  assert (Hparse : exists z, parseInt (String c rest) = Some z /\ 0 < z).
  { destruct (read_digits_grows rest (Z.of_nat (nat_of_ascii c) - 48) ltac:(lia))
      as (z & Hz & Hle).
    exists (1 * z). split; [| lia].
    rewrite (parseInt_leading_digit c rest Hc), Hz. reflexivity. }
  destruct Hparse as (z & Hz & Hpos). split; [| exists z; auto].
  unfold invalid_anime_id, parseInt_option. rewrite Hz. reflexivity.
Qed.

Lemma leading_digit_identifier_is_valid_witness :
  invalid_anime_id (Some "21abc") = false /\
  exists z, parseInt_option (Some "21abc") = Some z /\ 0 < z.
Proof.
  apply (leading_digit_identifier_is_valid "2" "1abc").
  vm_compute. split; discriminate.
Defined.
